(** * Swiss tournament engine: pairing generation, result ledger, standings

    A shallow embedding of the Express handlers of the repository.

    The repository carries three copies of the API:
    - the router of the serverless function without authentication,
      lines 22-388 of [src/unnamed/part_000] (module [Netlify]);
    - the router in lines 272-622 of [src/netlify/functions/api.js]
      (module [Api]), and the authenticated router in lines 1-271 of that
      file (module [Auth]);
    - the stand-alone Express server, lines 389-713 of
      [src/unnamed/part_000] (module [Server]).
    Line numbers in the comments are those of the file the module embeds.

    The handlers talk to PostgreSQL.  The two tables they use are modelled as
    lists of rows, an [UPDATE ... WHERE id = $n] as a map over the rows, an
    [INSERT] as an append that draws the row id from the table's sequence, and
    a transaction as a function from database to database: a handler that
    rolls back, or that returns before it has written, hands back the database
    it was given.

    Points are a NUMERIC column that only ever moves by 1 or by 0.5.  They are
    counted here in half points: [2] is one point and [1] is a draw's share. *)

From Stdlib Require Import ZArith String List Lia ZifyNat Permutation Sorted.
From stdpp Require Import base decidable option list numbers strings gmap sets.

Local Open Scope string_scope.
Local Open Scope list_scope.
Local Open Scope Z_scope.

(* stdpp's solvers clear hypotheses by name and report the ones already gone *)
#[local] Set Warnings "-clear-no-such-hyp".

(** ** Rows *)

Module Player.
Record t := Mk {
  id : Z;
  tournament_id : Z;
  name : string;
  grade : string;
  school : string;
  points : Z;        (* in half points *)
  had_bye : bool
}.

Definition set_points (z : Z) (r : t) : t :=
  Mk (id r) (tournament_id r) (name r) (grade r) (school r) z (had_bye r).

Definition set_had_bye (b : bool) (r : t) : t :=
  Mk (id r) (tournament_id r) (name r) (grade r) (school r) (points r) b.
End Player.

Module Pairing.
Record t := Mk {
  id : Z;
  tournament_id : Z;
  round_number : Z;
  white_id : Z;
  black_id : option Z;        (* NULL for a bye *)
  result : option string      (* NULL while the game is pending *)
}.

Definition set_result (s : option string) (r : t) : t :=
  Mk (id r) (tournament_id r) (round_number r) (white_id r) (black_id r) s.
End Pairing.

Record db := Db {
  players : list Player.t;
  pairings : list Pairing.t;
  pairings_id_seq : Z           (* next value of the SERIAL column *)
}.

(** HTTP status of a response; the bodies carry no data the engine uses. *)
Definition response := Z.

(** ** SQL and JavaScript helpers *)

(** [WHERE id = $n]: a NULL parameter matches no row. *)
Definition sql_id_eq (row_id : Z) (param : option Z) : bool :=
  match param with
  | Some i => bool_decide (row_id = i)
  | None => false
  end.

(** [UPDATE players SET points = points + $1 WHERE id = $2] *)
Definition add_points_row (delta : Z) (param : option Z) (r : Player.t)
  : Player.t :=
  if sql_id_eq (Player.id r) param
  then Player.set_points (Player.points r + delta) r
  else r.

Definition add_points (delta : Z) (param : option Z) (rows : list Player.t)
  : list Player.t :=
  map (add_points_row delta param) rows.

(** [UPDATE players SET points = points + 1, had_bye = TRUE WHERE id = $1] *)
Definition award_bye (pid : Z) (rows : list Player.t) : list Player.t :=
  map (fun r => if bool_decide (Player.id r = pid)
                then Player.set_had_bye true
                       (Player.set_points (Player.points r + 2) r)
                else r) rows.

(** [UPDATE pairings SET result = $1 WHERE id = $2] *)
Definition update_result (res : string) (pid : Z) (rows : list Pairing.t)
  : list Pairing.t :=
  map (fun r => if bool_decide (Pairing.id r = pid)
                then Pairing.set_result (Some res) r
                else r) rows.

(** [INSERT INTO pairings (tournament_id, round_number, white_id, black_id,
    result) VALUES (...)] *)
Definition sql_insert_pairing (tid round white : Z) (black : option Z)
    (res : option string) (d : db) : db :=
  Db (players d)
     (pairings d ++ [Pairing.Mk (pairings_id_seq d) tid round white black res])
     (pairings_id_seq d + 1).

(** An element of the [players] array of a bulk import request. *)
Record new_player := NewPlayer {
  np_name : string;
  np_grade : string;
  np_school : string
}.

(** The players table with the sequence of its SERIAL column. *)
Record players_table := PlayersTable {
  pt_rows : list Player.t;
  pt_id_seq : Z
}.

(** [INSERT INTO players (tournament_id, name, grade, school) VALUES (...)];
    [default_points] and [default_had_bye] are the column defaults, which
    the schema sets and the repository does not hold. *)
Definition sql_insert_player (default_points : Z) (default_had_bye : bool)
    (tid : Z) (p : new_player) (t : players_table) : players_table :=
  PlayersTable
    (pt_rows t ++
       [Player.Mk (pt_id_seq t) tid (np_name p) (np_grade p) (np_school p)
                  default_points default_had_bye])
    (pt_id_seq t + 1).

(** [UPDATE players SET points = points + $1 WHERE id = ANY($2::int[])]: a
    row is updated once when its id is in the array, NULL entries match
    nothing. *)
Definition add_points_any (delta : Z) (params : list (option Z))
    (rows : list Player.t) : list Player.t :=
  map (fun r => if existsb (sql_id_eq (Player.id r)) params
                then Player.set_points (Player.points r + delta) r
                else r) rows.

(** [SELECT * FROM pairings WHERE id = $1], first row. *)
Definition select_pairing (pid : Z) (rows : list Pairing.t) : option Pairing.t :=
  find (fun r => bool_decide (Pairing.id r = pid)) rows.

(** Truthiness of a nullable text column. *)
Definition truthy (s : option string) : bool :=
  match s with
  | Some s => negb (bool_decide (s = ""))
  | None => false
  end.

(** [Array.prototype.sort] is stable; it is modelled as a stable insertion
    sort driven by the comparator, [cmp a b <= 0] keeping [a] before [b]. *)
Section Sort.
Context {A : Type} (cmp : A → A → Z).

Fixpoint sort_insert (x : A) (l : list A) : list A :=
  match l with
  | [] => [x]
  | y :: l' => if bool_decide (cmp x y <= 0) then x :: y :: l'
               else y :: sort_insert x l'
  end.

Fixpoint js_sort (l : list A) : list A :=
  match l with
  | [] => []
  | x :: l' => sort_insert x (js_sort l')
  end.
End Sort.

(** ** The result ledger *)

(** The three accepted result strings and the points they give to white and
    to black, in half points. *)
Definition valid_results : list string := ["1-0"; "0-1"; "0.5-0.5"].

Definition result_points (r : string) : Z * Z :=
  if bool_decide (r = "1-0") then (2, 0)
  else if bool_decide (r = "0-1") then (0, 2)
  else if bool_decide (r = "0.5-0.5") then (1, 1)
  else (0, 0).

Module Netlify.

(** Lines 309-316 of the handler: take back the points of the old result. *)
Definition reverseResult (p : Pairing.t) (old : string) (rows : list Player.t)
  : list Player.t :=
  let '(oldWhitePoints, oldBlackPoints) := result_points old in
  add_points (- oldBlackPoints) (Pairing.black_id p)
    (add_points (- oldWhitePoints) (Some (Pairing.white_id p)) rows).

(** Lines 319-325: give the points of the new result. *)
Definition applyResult (p : Pairing.t) (new : string) (rows : list Player.t)
  : list Player.t :=
  let '(newWhitePoints, newBlackPoints) := result_points new in
  add_points newBlackPoints (Pairing.black_id p)
    (add_points newWhitePoints (Some (Pairing.white_id p)) rows).

(** [PUT /pairings/:id] *)
Definition setResult (pid : Z) (result : string) (d : db) : response * db :=
  if negb (bool_decide (result ∈ valid_results)) then (400, d)
  else
    match select_pairing pid (pairings d) with
    | None => (500, d)       (* throw, ROLLBACK *)
    | Some pairing =>
        let rows1 :=
          if truthy (Pairing.result pairing)
          then reverseResult pairing (default "" (Pairing.result pairing))
                             (players d)
          else players d in
        let rows2 := applyResult pairing result rows1 in
        (200, Db rows2 (update_result result pid (pairings d))
                 (pairings_id_seq d))
    end.

(** *** [POST /tournaments/:tournamentId/pairings/generate] *)

(** The objects pushed on [newPairings]. *)
Record new_pairing := NewPairing {
  np_white_id : Z;
  np_black_id : option Z;
  np_result : option string
}.

Section Generate.
(** [String.prototype.localeCompare] depends on the host's collation; the
    handler is parametric in it. *)
Variable localeCompare : string → string → Z.

(** [(a, b) => b.points - a.points || a.name.localeCompare(b.name)] *)
Definition by_points_then_name (a b : Player.t) : Z :=
  let d := Player.points b - Player.points a in
  if bool_decide (d ≠ 0) then d
  else localeCompare (Player.name a) (Player.name b).

(** [(a, b) => a.points - b.points] *)
Definition by_points_asc (a b : Player.t) : Z :=
  Player.points a - Player.points b.

(** [Math.max(...xs)] on a non-empty array. *)
Definition js_max (xs : list Z) : Z :=
  match xs with
  | [] => 0
  | x :: xs' => fold_left Z.max xs' x
  end.

(** Lines 232-236.  The second component is [availablePlayers] after the
    statement: the fallback sorts that array in place. *)
Definition choose_bye (availablePlayers : list Player.t)
  : option Player.t * list Player.t :=
  match head (js_sort by_points_asc
                (filter (λ p, Player.had_bye p = false) availablePlayers)) with
  | Some playerToBye => (Some playerToBye, availablePlayers)
  | None =>
      let sorted := js_sort by_points_asc availablePlayers in
      (head sorted, sorted)
  end.

(** Lines 251-254. *)
Definition havePlayed (allPairings : list Pairing.t) (player1 player2 : Player.t)
  : bool :=
  existsb (λ p,
    (bool_decide (Pairing.white_id p = Player.id player1)
     && bool_decide (Pairing.black_id p = Some (Player.id player2)))
    || (bool_decide (Pairing.white_id p = Player.id player2)
        && bool_decide (Pairing.black_id p = Some (Player.id player1))))
    allPairings.

(** Lines 247-263: the first candidate not met before, else the first
    candidate. *)
Definition find_opponent (allPairings : list Pairing.t)
    (availablePlayers : list Player.t) (pairedIds : gset Z)
    (player1 : Player.t) : option Player.t :=
  match find (λ player2,
          negb (bool_decide (Player.id player1 = Player.id player2)
                || bool_decide (Player.id player2 ∈ pairedIds))
          && negb (havePlayed allPairings player1 player2))
        availablePlayers with
  | Some opponent => Some opponent
  | None =>
      find (λ p, negb (bool_decide (Player.id p = Player.id player1))
                 && negb (bool_decide (Player.id p ∈ pairedIds)))
           availablePlayers
  end.

(** One turn of the outer loop, lines 245-269. *)
Definition pair_step (allPairings : list Pairing.t)
    (availablePlayers : list Player.t)
    (st : gset Z * list new_pairing) (player1 : Player.t)
  : gset Z * list new_pairing :=
  let '(pairedIds, newPairings) := st in
  if bool_decide (Player.id player1 ∈ pairedIds) then st
  else
    match find_opponent allPairings availablePlayers pairedIds player1 with
    | Some opponent =>
        ({[Player.id opponent]} ∪ ({[Player.id player1]} ∪ pairedIds),
         newPairings ++
           [NewPairing (Player.id player1) (Some (Player.id opponent)) None])
    | None => st
    end.

Definition pair_loop (allPairings : list Pairing.t)
    (availablePlayers : list Player.t) (newPairings : list new_pairing)
  : gset Z * list new_pairing :=
  fold_left (pair_step allPairings availablePlayers) availablePlayers
            (∅, newPairings).

(** Lines 272-277, one turn. *)
Definition insert_pairing (tid round : Z) (d : db) (p : new_pairing) : db :=
  sql_insert_pairing tid round (np_white_id p) (np_black_id p)
                     (np_result p) d.

Definition generate (tid : Z) (d : db) : response * db :=
  let rows := filter (λ r, Player.tournament_id r = tid) (players d) in
  if bool_decide (length rows < 2)%nat then (400, d)
  else
    let allPairings :=
      filter (λ r, Pairing.tournament_id r = tid) (pairings d) in
    let currentRound :=
      if bool_decide (0 < length allPairings)%nat
      then js_max (map Pairing.round_number allPairings) + 1
      else 1 in
    let sorted := js_sort by_points_then_name rows in
    let commit d1 newPairings :=
      (201, fold_left (insert_pairing tid currentRound) newPairings d1) in
    if bool_decide (Z.of_nat (length sorted) mod 2 ≠ 0)
    then
      match choose_bye sorted with
      | (None, _) => (500, d)        (* TypeError, ROLLBACK *)
      | (Some playerToBye, availablePlayers) =>
          let d1 := Db (award_bye (Player.id playerToBye) (players d))
                       (pairings d) (pairings_id_seq d) in
          let bye := NewPairing (Player.id playerToBye) None (Some "1-0") in
          let pool :=
            filter (λ p, Player.id p ≠ Player.id playerToBye)
                   availablePlayers in
          commit d1 (snd (pair_loop allPairings pool [bye]))
      end
    else commit d (snd (pair_loop allPairings sorted [])).
End Generate.

(** The player ids a new pairing holds. *)
Definition np_ids (q : new_pairing) : list Z :=
  match np_black_id q with
  | Some b => [np_white_id q; b]
  | None => [np_white_id q]
  end.

(** A game between two players, result pending. *)
Definition two_player (q : new_pairing) : Prop :=
  is_Some (np_black_id q) ∧ np_result q = None.

(** The columns of a row that [insert_pairing] copies from the object. *)
Definition as_new (r : Pairing.t) : new_pairing :=
  NewPairing (Pairing.white_id r) (Pairing.black_id r) (Pairing.result r).

(** State of the outer loop of the generator: [new] are the pairings pushed
    so far after the initial [acc0], and [pairedIds] holds exactly their
    player ids, each once, all of them ids of the pool. *)
Definition loop_inv (pool : list Player.t) (acc0 : list new_pairing)
    (st : gset Z * list new_pairing) (new : list new_pairing) : Prop :=
  st.2 = acc0 ++ new
  ∧ Forall two_player new
  ∧ NoDup (flat_map np_ids new)
  ∧ st.1 = list_to_set (flat_map np_ids new)
  ∧ st.1 ⊆ list_to_set (map Player.id pool).

End Netlify.

(** ** [GET /tournaments/:tournamentId/export]

    The three copies compute the standings with the same code (lines 350-365
    of the serverless router, 584-599 of [api.js], 678-686 of the server);
    they differ in the column labels only. *)

Record standing := Standing {
  Nombre : string;
  Puntos : Z;            (* half points *)
  Buchholz : Z;          (* half points *)
  Partidas : nat;
  Grado : string;
  Escuela : string
}.

(** [.filter(Boolean)] on an array of nullable ids: NULL and 0 are falsy. *)
Definition filter_Boolean (xs : list (option Z)) : list Z :=
  omap (λ x, match x with
             | Some i => if bool_decide (i = 0) then None else Some i
             | None => None
             end) xs.

Definition opponentIds (rows : list Pairing.t) (player : Player.t) : list Z :=
  let playerPairings :=
    filter (λ p, Pairing.white_id p = Player.id player
                 ∨ Pairing.black_id p = Some (Player.id player)) rows in
  filter_Boolean
    (map (λ p, if bool_decide (Pairing.white_id p = Player.id player)
               then Pairing.black_id p
               else Some (Pairing.white_id p)) playerPairings).

Definition buchholz (roster : list Player.t) (opps : list Z) : Z :=
  fold_left (λ sum oppId,
      match find (λ p, bool_decide (Player.id p = oppId)) roster with
      | Some opponent => sum + Player.points opponent
      | None => sum + 0
      end) opps 0.

(** [(a, b) => b.Puntos - a.Puntos || b.Buchholz - a.Buchholz] *)
Definition by_points_then_buchholz (a b : standing) : Z :=
  let d := Puntos b - Puntos a in
  if bool_decide (d ≠ 0) then d else Buchholz b - Buchholz a.

(** The body of the [players.map] callback. *)
Definition standing_of (roster : list Player.t) (rows : list Pairing.t)
    (player : Player.t) : standing :=
  let opps := opponentIds rows player in
  Standing (Player.name player) (Player.points player)
           (buchholz roster opps) (length opps)
           (Player.grade player) (Player.school player).

Definition standings (tid : Z) (d : db) : list standing :=
  let roster := filter (λ r, Player.tournament_id r = tid) (players d) in
  let rows := filter (λ r, Pairing.tournament_id r = tid) (pairings d) in
  js_sort by_points_then_buchholz (map (standing_of roster rows) roster).

(** ** The router of [src/netlify/functions/api.js] *)

Module Api.

(** [PUT /pairings/:id], lines 530-572.  The body's [result] is not
    checked; the three tests on each side are independent [if]s. *)
Definition setResult (pid : Z) (result : string) (d : db) : response * db :=
  match select_pairing pid (pairings d) with
  | None => (404, d)
  | Some pairing =>
      let white_id := Some (Pairing.white_id pairing) in
      let black_id := Pairing.black_id pairing in
      let old_result := Pairing.result pairing in
      let rows1 :=
        if truthy old_result then
          let r0 := players d in
          let r1 := if bool_decide (old_result = Some "1-0")
                    then add_points (-2) white_id r0 else r0 in
          let r2 := if bool_decide (old_result = Some "0-1")
                    then add_points (-2) black_id r1 else r1 in
          if bool_decide (old_result = Some "0.5-0.5")
          then add_points (-1) black_id (add_points (-1) white_id r2)
          else r2
        else players d in
      let r3 := if bool_decide (result = "1-0")
                then add_points 2 white_id rows1 else rows1 in
      let r4 := if bool_decide (result = "0-1")
                then add_points 2 black_id r3 else r3 in
      let r5 := if bool_decide (result = "0.5-0.5")
                then add_points 1 black_id (add_points 1 white_id r4)
                else r4 in
      (200, Db r5 (update_result result pid (pairings d)) (pairings_id_seq d))
  end.

(** *** [POST /tournaments/:tournamentId/pairings/generate], lines 447-526 *)

Section Generate.
(** Collation of the [name] column, used by [ORDER BY]. *)
Variable collate : string → string → Z.

(** [ORDER BY points DESC, name ASC] *)
Definition order_by_points_desc_name_asc (a b : Player.t) : Z :=
  let d := Player.points b - Player.points a in
  if bool_decide (d ≠ 0) then d
  else collate (Player.name a) (Player.name b).

(** [(lastRoundResult.rows[0].max_round || 0) + 1] over
    [SELECT MAX(round_number) ... WHERE tournament_id = $1] *)
Definition new_round (tid : Z) (rows : list Pairing.t) : Z :=
  match map Pairing.round_number
          (filter (λ r, Pairing.tournament_id r = tid) rows) with
  | [] => 0
  | x :: xs => fold_left Z.max xs x
  end + 1.

(** Line 467: does [SELECT id FROM pairings WHERE (white_id = $1 OR
    black_id = $1) AND black_id IS NULL AND tournament_id = $2] return a
    row. *)
Definition has_bye_row (tid : Z) (rows : list Pairing.t) (p : Player.t) : bool :=
  existsb (λ r,
    (bool_decide (Pairing.white_id r = Player.id p)
     || bool_decide (Pairing.black_id r = Some (Player.id p)))
    && bool_decide (Pairing.black_id r = None)
    && bool_decide (Pairing.tournament_id r = tid)) rows.

(** Lines 463-474: walk the sorted roster from its end. *)
Definition choose_bye (tid : Z) (rows : list Pairing.t)
    (sorted : list Player.t) : option Player.t :=
  match find (λ p, negb (has_bye_row tid rows p)) (rev sorted) with
  | Some p => Some p
  | None => last sorted
  end.

(** Line 494: does [SELECT id FROM pairings WHERE (white_id = $1 AND
    black_id = $2) OR (white_id = $2 AND black_id = $1)] return a row.  The
    query looks at the pairings of every tournament. *)
Definition prevGame (rows : list Pairing.t) (a b : Z) : bool :=
  existsb (λ r,
    (bool_decide (Pairing.white_id r = a)
     && bool_decide (Pairing.black_id r = Some b))
    || (bool_decide (Pairing.white_id r = b)
        && bool_decide (Pairing.black_id r = Some a))) rows.

(** Lines 488-508: [rest] holds the players after [player1]. *)
Definition find_player2 (rows : list Pairing.t) (pairedIds : gset Z)
    (player1 : Player.t) (rest : list Player.t) : option Player.t :=
  match find (λ candidate,
          negb (bool_decide (Player.id candidate ∈ pairedIds))
          && negb (prevGame rows (Player.id player1) (Player.id candidate)))
        rest with
  | Some candidate => Some candidate
  | None => find (λ p, negb (bool_decide (Player.id p ∈ pairedIds))) rest
  end.

(** Lines 484-515.  [playersToPair] is the part of the array from index [i]
    on; each pairing is inserted as soon as it is made. *)
Fixpoint pair_loop (tid round : Z) (playersToPair : list Player.t)
    (pairedIds : gset Z) (d : db) : db :=
  match playersToPair with
  | [] => d
  | player1 :: rest =>
      if bool_decide (Player.id player1 ∈ pairedIds)
      then pair_loop tid round rest pairedIds d
      else
        match find_player2 (pairings d) pairedIds player1 rest with
        | Some player2 =>
            pair_loop tid round rest
              ({[Player.id player2]} ∪ ({[Player.id player1]} ∪ pairedIds))
              (sql_insert_pairing tid round (Player.id player1)
                 (Some (Player.id player2)) None d)
        | None => pair_loop tid round rest pairedIds d
        end
  end.

Definition generate (tid : Z) (d : db) : response * db :=
  let sorted :=
    js_sort order_by_points_desc_name_asc
      (filter (λ r, Player.tournament_id r = tid) (players d)) in
  let currentRound := new_round tid (pairings d) in
  let finish (pairedIds : gset Z) (d1 : db) :=
    (201, pair_loop tid currentRound
            (filter (λ p, Player.id p ∉ pairedIds) sorted) pairedIds d1) in
  if bool_decide (Z.of_nat (length sorted) mod 2 ≠ 0)
  then
    match choose_bye tid (pairings d) sorted with
    | Some byePlayer =>
        let d1 :=
          sql_insert_pairing tid currentRound (Player.id byePlayer) None
            (Some "1-0") d in
        finish {[Player.id byePlayer]}
          (Db (add_points 2 (Some (Player.id byePlayer)) (players d1))
              (pairings d1) (pairings_id_seq d1))
    | None => (500, d)      (* TypeError, ROLLBACK *)
    end
  else finish ∅ d.
End Generate.

(** *** [POST /tournaments/:tournamentId/players/bulk], lines 382-409; the
    authenticated router has the same loop at lines 125-147 *)

Section Bulk.
(** The SQL function [lower]. *)
Variable sql_lower : string → string.
Variable default_points : Z.
Variable default_had_bye : bool.

(** One turn of the loop; the state is the table and the two counters. *)
Definition bulk_step (tid : Z) (st : players_table * nat * nat)
    (player : new_player) : players_table * nat * nat :=
  let '(t, importedCount, duplicatesCount) := st in
  let existing :=
    filter (λ r, Player.tournament_id r = tid
                 ∧ sql_lower (Player.name r) = sql_lower (np_name player))
           (pt_rows t) in
  if bool_decide (length existing = 0%nat)
  then (sql_insert_player default_points default_had_bye tid player t,
        S importedCount, duplicatesCount)
  else (t, importedCount, S duplicatesCount).

Definition bulk (tid : Z) (newPlayers : list new_player) (t : players_table)
  : response * option (nat * nat) * players_table :=
  let '(t', importedCount, duplicatesCount) :=
    fold_left (bulk_step tid) newPlayers (t, 0%nat, 0%nat) in
  (201, Some (importedCount, duplicatesCount), t').
End Bulk.

End Api.

(** ** The authenticated router, lines 1-271 of [src/netlify/functions/api.js] *)

Module Auth.

(** *** The [authenticateToken] middleware, lines 27-37 *)

(** [s.split(' ')]: the pieces of [s] between its spaces. *)
Fixpoint split_space (s : string) : list string :=
  match s with
  | EmptyString => [EmptyString]
  | String c s' =>
      if bool_decide (c = Ascii.Space) then EmptyString :: split_space s'
      else match split_space s' with
           | [] => [String c EmptyString]
           | piece :: pieces => String c piece :: pieces
           end
  end.

(** What the middleware does with a request: answer with a status, or hand
    it on with [req.user] set. *)
Inductive outcome (user : Type) :=
| SendStatus (code : Z)
| Next (u : user).
Arguments SendStatus {user} code.
Arguments Next {user} u.

Section Authenticate.
Variable user : Type.
(** [jwt.verify(token, JWT_SECRET, callback)] of the jsonwebtoken library:
    the user a token carries, or nothing when the library reports an
    error. *)
Variable verify : string → option user.

(** [authHeader] is the [authorization] header, absent or a string.  An
    empty header is falsy and becomes the token itself. *)
Definition authenticateToken (authHeader : option string) : outcome user :=
  let token :=
    match authHeader with
    | None => None
    | Some h => if bool_decide (h = "") then Some "" else split_space h !! 1%nat
    end in
  match token with
  | None => SendStatus 401
  | Some t =>
      match verify t with
      | None => SendStatus 403
      | Some u => Next u
      end
  end.
End Authenticate.

(** [PUT /pairings/:id], lines 207-241, behind [authenticateToken].  A draw
    moves both players with one [UPDATE ... WHERE id = ANY(...)]. *)
Definition setResult (pid : Z) (result : string) (d : db) : response * db :=
  match select_pairing pid (pairings d) with
  | None => (404, d)
  | Some pairing =>
      let white_id := Some (Pairing.white_id pairing) in
      let black_id := Pairing.black_id pairing in
      let old_result := Pairing.result pairing in
      let rows1 :=
        if truthy old_result then
          let r0 := players d in
          let r1 := if bool_decide (old_result = Some "1-0")
                    then add_points (-2) white_id r0 else r0 in
          let r2 := if bool_decide (old_result = Some "0-1")
                    then add_points (-2) black_id r1 else r1 in
          if bool_decide (old_result = Some "0.5-0.5")
          then add_points_any (-1) [white_id; black_id] r2
          else r2
        else players d in
      let r3 := if bool_decide (result = "1-0")
                then add_points 2 white_id rows1 else rows1 in
      let r4 := if bool_decide (result = "0-1")
                then add_points 2 black_id r3 else r3 in
      let r5 := if bool_decide (result = "0.5-0.5")
                then add_points_any 1 [white_id; black_id] r4
                else r4 in
      (200, Db r5 (update_result result pid (pairings d)) (pairings_id_seq d))
  end.

End Auth.

(** ** The stand-alone Express server

    Its tables name the columns [white_player_id], [black_player_id] and
    [has_had_bye]; the rows are the same. *)

Module Server.

Section Generate.
(** Collation of the [name] column, used by [ORDER BY]. *)
Variable collate : string → string → Z.

(** [ORDER BY points DESC, name ASC] *)
Definition order_by_points_desc_name_asc (a b : Player.t) : Z :=
  let d := Player.points b - Player.points a in
  if bool_decide (d ≠ 0) then d
  else collate (Player.name a) (Player.name b).

(** [COALESCE(MAX(round_number), 0) + 1] *)
Definition new_round (rows : list Pairing.t) : Z :=
  match map Pairing.round_number rows with
  | [] => 0
  | x :: xs => fold_left Z.max xs x
  end + 1.

(** [pastOpponents[k].push(v)]; on a missing key the call throws. *)
Definition push (k v : Z) (m : gmap Z (list Z)) : option (gmap Z (list Z)) :=
  match m !! k with
  | Some l => Some (<[k := l ++ [v]]> m)
  | None => None
  end.

(** Lines 574-580. *)
Definition build_pastOpponents (roster : list Player.t)
    (rows : list Pairing.t) : option (gmap Z (list Z)) :=
  let init : gmap Z (list Z) :=
    fold_left (λ acc p, <[Player.id p := []]> acc) roster ∅ in
  fold_left (λ acc p,
      m ← acc;
      match Pairing.black_id p with
      | Some b =>
          if bool_decide (Pairing.white_id p ≠ 0) && bool_decide (b ≠ 0)
          then m1 ← push (Pairing.white_id p) b m;
               push b (Pairing.white_id p) m1
          else Some m
      | None => Some m
      end) rows (Some init).

(** Lines 591-607.  [playersToPair] is the part of the array from index
    [i] on; [player1] always has its entry in [pastOpponents]. *)
Fixpoint pair_loop (tid round : Z) (pastOpponents : gmap Z (list Z))
    (playersToPair : list Player.t) (paired : gset Z) (d : db) : db :=
  match playersToPair with
  | [] => d
  | player1 :: rest =>
      if bool_decide (Player.id player1 ∈ paired)
      then pair_loop tid round pastOpponents rest paired d
      else
        match find (λ candidate,
                negb (bool_decide (Player.id candidate ∈ paired))
                && negb (bool_decide
                     (Player.id candidate
                        ∈ pastOpponents !!! Player.id player1)))
              rest with
        | Some player2 =>
            pair_loop tid round pastOpponents rest
              ({[Player.id player2]} ∪ ({[Player.id player1]} ∪ paired))
              (sql_insert_pairing tid round (Player.id player1)
                 (Some (Player.id player2)) None d)
        | None => pair_loop tid round pastOpponents rest paired d
        end
  end.

(** [POST /api/tournaments/:tournamentId/pairings/generate] *)
Definition generate (tid : Z) (d : db) : response * db :=
  let history := filter (λ r, Pairing.tournament_id r = tid) (pairings d) in
  let currentRound := new_round history in
  let roster :=
    js_sort order_by_points_desc_name_asc
      (filter (λ r, Player.tournament_id r = tid) (players d)) in
  match build_pastOpponents roster history with
  | None => (500, d)            (* TypeError, ROLLBACK *)
  | Some pastOpponents =>
      let finish (paired : gset Z) (d1 : db) :=
        let playersToPair := filter (λ p, Player.id p ∉ paired) roster in
        (201, pair_loop tid currentRound pastOpponents playersToPair
                paired d1) in
      if bool_decide (Z.of_nat (length roster) mod 2 ≠ 0)
      then
        match (match find (λ p, negb (Player.had_bye p)) (rev roster) with
               | Some p => Some p
               | None => last roster
               end) with
        | Some byePlayer =>
            finish {[Player.id byePlayer]}
              (sql_insert_pairing tid currentRound (Player.id byePlayer)
                 None (Some "1-0")
                 (Db (award_bye (Player.id byePlayer) (players d))
                     (pairings d) (pairings_id_seq d)))
        | None => (500, d)      (* TypeError, ROLLBACK *)
        end
      else finish ∅ d
  end.
End Generate.

(** *** [PUT /api/pairings/:id], lines 621-665 *)

Definition setResult (pid : Z) (newResult : string) (d : db) : response * db :=
  if negb (bool_decide (newResult ∈ valid_results)) then (400, d)
  else
    match select_pairing pid (pairings d) with
    | None => (404, d)
    | Some pairing =>
        let white := Some (Pairing.white_id pairing) in
        let black := Pairing.black_id pairing in
        let oldResult := Pairing.result pairing in
        let rows1 :=
          if truthy oldResult then
            if bool_decide (oldResult = Some "1-0")
            then add_points (-2) white (players d)
            else if bool_decide (oldResult = Some "0-1")
            then add_points (-2) black (players d)
            else if bool_decide (oldResult = Some "0.5-0.5")
            then add_points (-1) black (add_points (-1) white (players d))
            else players d
          else players d in
        let rows2 :=
          if bool_decide (newResult = "1-0")
          then add_points 2 white rows1
          else if bool_decide (newResult = "0-1")
          then add_points 2 black rows1
          else if bool_decide (newResult = "0.5-0.5")
          then add_points 1 black (add_points 1 white rows1)
          else rows1 in
        (200, Db rows2 (update_result newResult pid (pairings d))
                 (pairings_id_seq d))
    end.

(** *** [POST /api/tournaments/:tournamentId/players/bulk], lines 484-523 *)

(** Loop state: the table, the [existingNames] set and the two counters. *)
Record bulk_state := BulkState {
  bs_table : players_table;
  existingNames : gset string;
  importedCount : nat;
  duplicatesCount : nat
}.

Section Bulk.
(** [String.prototype.toLowerCase]; it follows the Unicode case tables. *)
Variable toLowerCase : string → string.
(** The column defaults of [points] and [had_bye]; the schema is not part
    of the repository. *)
Variable default_points : Z.
Variable default_had_bye : bool.

(** One turn of the loop, lines 501-512. *)
Definition bulk_step (tid : Z) (st : bulk_state) (player : new_player)
  : bulk_state :=
  if bool_decide (toLowerCase (np_name player) ∈ existingNames st)
  then BulkState (bs_table st) (existingNames st) (importedCount st)
                 (S (duplicatesCount st))
  else BulkState (sql_insert_player default_points default_had_bye tid player
                    (bs_table st))
                 ({[toLowerCase (np_name player)]} ∪ existingNames st)
                 (S (importedCount st)) (duplicatesCount st).

(** The handler: the status, the two counters of the answer and the table
    after the call. *)
Definition bulk (tid : Z) (newPlayers : list new_player) (t : players_table)
  : response * option (nat * nat) * players_table :=
  if bool_decide (length newPlayers = 0%nat) then (400, None, t)
  else
    let existingPlayers :=
      filter (λ r, Player.tournament_id r = tid) (pt_rows t) in
    let init :=
      BulkState t
        (list_to_set (map (λ p, toLowerCase (Player.name p)) existingPlayers))
        0 0 in
    let st := fold_left (bulk_step tid) newPlayers init in
    (201, Some (importedCount st, duplicatesCount st), bs_table st).
End Bulk.

End Server.

(** ** The specification's reading of the standings

    Written from the words of the specification, to be compared with the
    handler's pipeline. *)

(** The opponent a player faced in a pairing, if any: a bye has none. *)
Definition opponent_faced (pid : Z) (p : Pairing.t) : option Z :=
  if bool_decide (Pairing.white_id p = pid) then Pairing.black_id p
  else if bool_decide (Pairing.black_id p = Some pid)
       then Some (Pairing.white_id p)
       else None.

(** The current points of a player of the roster; nothing for an id that is
    no longer in it. *)
Definition current_points (roster : list Player.t) (pid : Z) : Z :=
  match find (λ p, bool_decide (Player.id p = pid)) roster with
  | Some p => Player.points p
  | None => 0
  end.

(** Sum of the current points of the opponents faced. *)
Definition tiebreak_spec (roster : list Player.t) (rows : list Pairing.t)
    (player : Player.t) : Z :=
  foldr Z.add 0
    (map (λ p, from_option (current_points roster) 0
                 (opponent_faced (Player.id player) p)) rows).

(** Number of pairings in which the player faced a present opponent. *)
Definition games_spec (rows : list Pairing.t) (player : Player.t) : nat :=
  length (filter (λ p, is_Some (opponent_faced (Player.id player) p)) rows).

(** The presentation order the handler's comparator induces. *)
Definition ranks_before (a b : standing) : Prop :=
  Puntos b < Puntos a ∨ (Puntos a = Puntos b ∧ Buchholz b <= Buchholz a).

(** Row ids come from SERIAL columns, which start at 1. *)
Definition serial_ids (rows : list Pairing.t) : Prop :=
  Forall (λ p, Pairing.white_id p ≠ 0 ∧ Pairing.black_id p ≠ Some 0) rows.

(** A player appears in a pairing as white or as black. *)
Definition appears (pid : Z) (p : Pairing.t) : Prop :=
  Pairing.white_id p = pid ∨ Pairing.black_id p = Some pid.

#[global] Instance appears_dec pid p : Decision (appears pid p).
Proof. unfold appears. apply _. Defined.

(** The pairing rows a handler call added to the table. *)
Definition added_rows (before after : db) : list Pairing.t :=
  drop (length (pairings before)) (pairings after).

(** ** Notions used to state what the handlers keep *)

(** Sum of the points column, in half points. *)
Definition total_points (rows : list Player.t) : Z :=
  foldr Z.add 0 (map Player.points rows).

(** The pairing [h] was between players [a] and [b], in either colour. *)
Definition met (a b : Z) (h : Pairing.t) : Prop :=
  (Pairing.white_id h = a ∧ Pairing.black_id h = Some b)
  ∨ (Pairing.white_id h = b ∧ Pairing.black_id h = Some a).

(** The string holds no space. *)
Definition no_space (s : string) : Prop :=
  Ascii.Space ∉ list_ascii_of_string s.

(** Two rows of the players table that differ at most in their points. *)
Definition same_but_points (r r' : Player.t) : Prop :=
  r' = Player.set_points (Player.points r') r.

(** The lower-cased names of the players of a tournament. *)
Definition lower_names (lower : string → string) (tid : Z)
    (rows : list Player.t) : list string :=
  map (λ p, lower (Player.name p))
      (filter (λ r, Player.tournament_id r = tid) rows).

(** ** Sample databases *)

Module Sample.
(** Code-point order of the names, a collation under which P1 < ... < P5. *)
Definition codepoint_compare (a b : string) : Z :=
  match String.compare a b with
  | Lt => -1
  | Eq => 0
  | Gt => 1
  end.

Definition player (i : Z) (n : string) (pts : Z) (bye : bool) : Player.t :=
  Player.Mk i 1 n "6" "Central" pts bye.

(** Five fresh players, no pairing yet. *)
Definition five : db :=
  Db [player 1 "P1" 0 false; player 2 "P2" 0 false; player 3 "P3" 0 false;
      player 4 "P4" 0 false; player 5 "P5" 0 false] [] 1.

(** One game between players 1 and 2, pending. *)
Definition pending_game : db :=
  Db [player 1 "P1" 0 false; player 2 "P2" 0 false]
     [Pairing.Mk 1 1 1 1 (Some 2) None] 2.

(** The same game, won by white. *)
Definition played_game : db :=
  Db [player 1 "P1" 2 false; player 2 "P2" 0 false]
     [Pairing.Mk 1 1 1 1 (Some 2) (Some "1-0")] 2.

(** Three players after a first round: player 3 had the bye. *)
Definition after_bye : db :=
  Db [player 1 "P1" 0 false; player 2 "P2" 0 false; player 3 "P3" 2 true]
     [Pairing.Mk 1 1 1 3 None (Some "1-0");
      Pairing.Mk 2 1 1 1 (Some 2) None] 3.

(** Two players listed against the alphabet, level on every key. *)
Definition level_pair : db :=
  Db [player 1 "B" 0 false; player 2 "A" 0 false] [] 1.

(** A token check that accepts one token, for user 7. *)
Definition verify (t : string) : option nat :=
  if bool_decide (t = "abc") then Some 7%nat else None.
End Sample.

(** Linear arithmetic with division and remainder by a constant. *)
Ltac lia_mod := zify; Z.div_mod_to_equations; lia.

(** Closes a decidable goal on concrete data by evaluation. *)
Ltac by_decide :=
  match goal with
  | |- ?P => apply (bool_decide_unpack P); vm_compute; exact I
  end.

(** * The result ledger *)

Section Ledger.

Lemma add_points_row_id delta param r :
  Player.id (add_points_row delta param r) = Player.id r.
Proof. unfold add_points_row. by destruct (sql_id_eq _ _). Qed.

Lemma add_points_row_add a b param r :
  add_points_row a param (add_points_row b param r)
  = add_points_row (b + a) param r.
Proof.
  unfold add_points_row.
  destruct (sql_id_eq (Player.id r) param) eqn:E; simpl; rewrite E; [|done].
  unfold Player.set_points; simpl. f_equal. lia.
Qed.

Lemma add_points_row_0 param r : add_points_row 0 param r = r.
Proof.
  unfold add_points_row. destruct (sql_id_eq _ _); [|done].
  destruct r; unfold Player.set_points; simpl. f_equal. lia.
Qed.

Lemma add_points_row_comm a b i j r :
  add_points_row a i (add_points_row b j r)
  = add_points_row b j (add_points_row a i r).
Proof.
  unfold add_points_row.
  destruct (sql_id_eq (Player.id r) i) eqn:Ei,
           (sql_id_eq (Player.id r) j) eqn:Ej;
    simpl; rewrite ?Ei, ?Ej; try done.
  unfold Player.set_points; simpl. f_equal. lia.
Qed.

Lemma add_points_None delta rows : add_points delta None rows = rows.
Proof. unfold add_points. rewrite <- (map_id rows) at 2. by apply map_ext. Qed.

Lemma add_points_add a b param rows :
  add_points a param (add_points b param rows) = add_points (b + a) param rows.
Proof.
  unfold add_points. rewrite map_map. apply map_ext; intros r.
  apply add_points_row_add.
Qed.

Lemma add_points_0 param rows : add_points 0 param rows = rows.
Proof.
  unfold add_points. rewrite <- (map_id rows) at 2.
  apply map_ext, add_points_row_0.
Qed.

Lemma add_points_comm a b i j rows :
  add_points a i (add_points b j rows) = add_points b j (add_points a i rows).
Proof.
  unfold add_points. rewrite !map_map. apply map_ext; intros r.
  apply add_points_row_comm.
Qed.

(** Giving [w] and [b] and taking them back, in either order, is the
    identity on the players table. *)
Lemma give_take w b wi bi rows :
  add_points (- b) bi (add_points (- w) wi
    (add_points b bi (add_points w wi rows))) = rows.
Proof.
  rewrite (add_points_comm (- w) b), add_points_add.
  rewrite add_points_add.
  replace (b + - b) with 0 by lia. replace (w + - w) with 0 by lia.
  by rewrite !add_points_0.
Qed.

Lemma take_give w b wi bi rows :
  add_points b bi (add_points w wi
    (add_points (- b) bi (add_points (- w) wi rows))) = rows.
Proof.
  rewrite <- (give_take (- w) (- b) wi bi rows) at 2.
  by rewrite !Z.opp_involutive.
Qed.

Lemma valid_result_truthy r : r ∈ valid_results → truthy (Some r) = true.
Proof.
  unfold valid_results. rewrite !elem_of_cons, elem_of_nil.
  by intros [-> | [-> | [-> | []]]].
Qed.

Lemma select_update res pid rows p :
  select_pairing pid rows = Some p →
  select_pairing pid (update_result res pid rows)
  = Some (Pairing.set_result (Some res) p).
Proof.
  unfold select_pairing, update_result.
  induction rows as [|r rows IH]; simpl; [done|].
  destruct (bool_decide (Pairing.id r = pid)) eqn:E; simpl.
  - intros [= ->]. by rewrite E.
  - rewrite E. apply IH.
Qed.

Lemma update_update a b pid rows :
  update_result b pid (update_result a pid rows) = update_result b pid rows.
Proof.
  unfold update_result. rewrite map_map. apply map_ext; intros r.
  destruct (bool_decide (Pairing.id r = pid)) eqn:E; simpl; by rewrite E.
Qed.

(** What the serverless handler does on a pairing it finds. *)
Lemma setResult_found pid r d p :
  r ∈ valid_results →
  select_pairing pid (pairings d) = Some p →
  Netlify.setResult pid r d
  = (200, Db (Netlify.applyResult p r
                (if truthy (Pairing.result p)
                 then Netlify.reverseResult p (default "" (Pairing.result p))
                        (players d)
                 else players d))
             (update_result r pid (pairings d)) (pairings_id_seq d)).
Proof.
  intros Hr Hp. unfold Netlify.setResult.
  rewrite bool_decide_eq_true_2 by done. simpl. by rewrite Hp.
Qed.

(** The serverless handler turns down a result outside the three strings
    before it opens the transaction. *)
Lemma setResult_rejects_invalid pid r d :
  r ∉ valid_results → Netlify.setResult pid r d = (400, d).
Proof.
  intros Hr. unfold Netlify.setResult.
  by rewrite bool_decide_eq_false_2.
Qed.

End Ledger.

(** C2. Taking back the points of a result and giving the points of the same
    result again leaves the players table, hence every player's points, as it
    was; this holds for a bye (no black player) as for a game. *)
Theorem reverse_then_apply_restores (p : Pairing.t) (r : string)
    (rows : list Player.t) :
  Netlify.applyResult p r (Netlify.reverseResult p r rows) = rows.
Proof.
  unfold Netlify.applyResult, Netlify.reverseResult.
  destruct (result_points r) as [w b]. apply take_give.
Qed.

(** C1. On a pending pairing with both players present, entering result [A]
    and then result [B] leaves the database where entering [B] alone leaves
    it: both calls are accepted and the points are those of [B] only. *)
Theorem setResult_twice_counts_latest (d : db) (pid : Z) (p : Pairing.t)
    (black : Z) (A B : string) :
  A ∈ valid_results → B ∈ valid_results →
  select_pairing pid (pairings d) = Some p →
  Pairing.black_id p = Some black →
  Pairing.result p = None →
  Netlify.setResult pid B (snd (Netlify.setResult pid A d))
  = Netlify.setResult pid B d
  ∧ Netlify.setResult pid B d
    = (200, Db (Netlify.applyResult p B (players d))
               (update_result B pid (pairings d)) (pairings_id_seq d)).
Proof.
  intros HA HB Hp _ Hres.
  rewrite (setResult_found pid A d p HA Hp).
  rewrite (setResult_found pid B d p HB Hp).
  rewrite Hres. simpl. split; [|done].
  erewrite setResult_found; [|done|by apply select_update].
  change (Pairing.result (Pairing.set_result (Some A) p)) with (Some A).
  rewrite (valid_result_truthy A HA).
  cbn [pairings players pairings_id_seq default from_option id].
  rewrite update_update. do 2 f_equal.
  unfold Netlify.applyResult at 2. unfold Netlify.reverseResult.
  cbn [Pairing.white_id Pairing.black_id Pairing.set_result].
  destruct (result_points A) as [w b]. by rewrite give_take.
Qed.

Lemma setResult_twice_counts_latest_witness :
  Netlify.setResult 1 "1-0"
    (snd (Netlify.setResult 1 "0.5-0.5" Sample.pending_game))
  = Netlify.setResult 1 "1-0" Sample.pending_game
  ∧ Netlify.setResult 1 "1-0" Sample.pending_game
    = (200, Db (Netlify.applyResult (Pairing.Mk 1 1 1 1 (Some 2) None) "1-0"
                  (players Sample.pending_game))
               (update_result "1-0" 1 (pairings Sample.pending_game))
               (pairings_id_seq Sample.pending_game)).
Proof.
  apply (setResult_twice_counts_latest Sample.pending_game 1
           (Pairing.Mk 1 1 1 1 (Some 2) None) 2 "0.5-0.5" "1-0").
  - by_decide.
  - by_decide.
  - reflexivity.
  - reflexivity.
  - reflexivity.
Defined.

(** C6, the claim as stated fails: the handler accepts a new result for the
    bye of player 3; the stored result becomes [0-1] and the point of the bye
    is taken back. *)
Lemma bye_result_is_overwritten :
  fst (Netlify.setResult 1 "0-1" Sample.after_bye) = 200
  ∧ map Pairing.result (pairings (snd (Netlify.setResult 1 "0-1" Sample.after_bye)))
    = [Some "0-1"; None]
  ∧ map Player.points (players Sample.after_bye) = [0; 0; 2]
  ∧ map Player.points (players (snd (Netlify.setResult 1 "0-1" Sample.after_bye)))
    = [0; 0; 0].
Proof. vm_compute. done. Qed.

(** C6, amended. No handler rejects a bye: for a bye pairing holding [1-0]
    and any of the three results, the call is accepted, the stored result
    becomes the new one, the bye player's points move by the white share of
    the new result less the one point of the bye, and no other row of the
    players table changes.  Both routers that the claim cites agree. *)
Theorem setResult_on_bye (d : db) (pid : Z) (p : Pairing.t) (r : string) :
  r ∈ valid_results →
  select_pairing pid (pairings d) = Some p →
  Pairing.black_id p = None →
  Pairing.result p = Some "1-0" →
  let after :=
    Db (add_points (fst (result_points r) - 2) (Some (Pairing.white_id p))
          (players d))
       (update_result r pid (pairings d)) (pairings_id_seq d) in
  Netlify.setResult pid r d = (200, after)
  ∧ Api.setResult pid r d = (200, after)
  ∧ (∀ i row, players d !! i = Some row →
       Player.id row ≠ Pairing.white_id p → players after !! i = Some row).
Proof.
  intros Hr Hp Hb Hres after. subst after. split; [|split].
  - rewrite (setResult_found pid r d p Hr Hp), Hres. simpl.
    unfold Netlify.applyResult, Netlify.reverseResult. rewrite Hb.
    change (result_points "1-0") with (2, 0).
    destruct (result_points r) as [w b]. simpl.
    rewrite !add_points_None, add_points_add. do 3 f_equal. lia.
  - unfold Api.setResult. rewrite Hp, Hb, Hres. simpl.
    unfold valid_results in Hr. rewrite !elem_of_cons, elem_of_nil in Hr.
    destruct Hr as [-> | [-> | [-> | []]]]; vm_compute result_points;
      simpl; rewrite ?add_points_None, ?add_points_add; reflexivity.
  - intros i row Hi Hne. simpl. unfold add_points.
    rewrite list_lookup_fmap_Some. exists row. split; [|done].
    unfold add_points_row, sql_id_eq. by rewrite bool_decide_eq_false_2.
Qed.

Lemma setResult_on_bye_witness :
  let after :=
    Db (add_points (fst (result_points "0.5-0.5") - 2) (Some 3)
          (players Sample.after_bye))
       (update_result "0.5-0.5" 1 (pairings Sample.after_bye))
       (pairings_id_seq Sample.after_bye) in
  Netlify.setResult 1 "0.5-0.5" Sample.after_bye = (200, after)
  ∧ Api.setResult 1 "0.5-0.5" Sample.after_bye = (200, after)
  ∧ (∀ i row, players Sample.after_bye !! i = Some row →
       Player.id row ≠ 3 → players after !! i = Some row).
Proof.
  apply (setResult_on_bye Sample.after_bye 1
           (Pairing.Mk 1 1 1 3 None (Some "1-0")) "0.5-0.5").
  - by_decide.
  - reflexivity.
  - reflexivity.
  - reflexivity.
Defined.

(** C7, the router of [api.js] at a result outside the three strings: the
    call is answered 200, white loses the point of the stored [1-0] and the
    pairing's result becomes the string sent. *)
Theorem api_setResult_accepts_invalid :
("2-0" ∉ valid_results)
  ∧ Api.setResult 1 "2-0" Sample.played_game
    = (200, Db [Sample.player 1 "P1" 0 false; Sample.player 2 "P2" 0 false]
               [Pairing.Mk 1 1 1 1 (Some 2) (Some "2-0")] 2)
  ∧ Netlify.setResult 1 "2-0" Sample.played_game = (400, Sample.played_game).
Proof.
  split; [|split].
  - apply (bool_decide_eq_false_1 ("2-0" ∈ valid_results)). reflexivity.
  - vm_compute. reflexivity.
  - vm_compute. reflexivity.
Qed.

(** * The pairing generator *)

Section Sorting.
Context {A : Type} (cmp : A → A → Z).

Lemma sort_insert_Permutation x l : sort_insert cmp x l ≡ₚ x :: l.
Proof.
  induction l as [|y l IH]; simpl; [done|].
  destruct (bool_decide (cmp x y <= 0)); [done|].
  rewrite IH. apply perm_swap.
Qed.

Lemma js_sort_Permutation l : js_sort cmp l ≡ₚ l.
Proof.
  induction l as [|x l IH]; simpl; [done|].
  by rewrite sort_insert_Permutation, IH.
Qed.

Lemma js_sort_head_elem l x : head (js_sort cmp l) = Some x → x ∈ l.
Proof.
  intros H. rewrite <- js_sort_Permutation.
  destruct (js_sort cmp l); simplify_eq/=. left.
Qed.

Lemma js_sort_head_is_Some l : l ≠ [] → is_Some (head (js_sort cmp l)).
Proof.
  intros H. destruct (js_sort cmp l) eqn:E; simpl; [|eauto].
  exfalso. apply H. apply Permutation_nil_r. by rewrite <- E, js_sort_Permutation.
Qed.
End Sorting.

Section PairLoop.
Import Netlify.
Context (allPairings : list Pairing.t) (pool : list Player.t).

Lemma find_opponent_Some pairedIds p1 o :
  find_opponent allPairings pool pairedIds p1 = Some o →
  o ∈ pool ∧ Player.id o ≠ Player.id p1 ∧ Player.id o ∉ pairedIds.
Proof.
  unfold find_opponent.
  destruct (find _ pool) as [o'|] eqn:E1.
  - intros [= <-]. apply find_some in E1 as [Hin H].
    rewrite list_elem_of_In. split; [done|].
    apply andb_true_iff in H as [H _].
    apply negb_true_iff, orb_false_iff in H as [H1 H2].
    apply bool_decide_eq_false in H1, H2. split; [congruence|done].
  - intros E2. apply find_some in E2 as [Hin H].
    rewrite list_elem_of_In. split; [done|].
    apply andb_true_iff in H as [H1 H2].
    apply negb_true_iff, bool_decide_eq_false in H1, H2. done.
Qed.

Lemma find_opponent_None pairedIds p1 :
  find_opponent allPairings pool pairedIds p1 = None →
  ∀ x, x ∈ pool → Player.id x = Player.id p1 ∨ Player.id x ∈ pairedIds.
Proof.
  unfold find_opponent.
  destruct (find _ pool) as [o'|] eqn:E1; [done|].
  intros E2 x Hx. apply list_elem_of_In in Hx.
  pose proof (find_none _ _ E2 x Hx) as H. simpl in H.
  apply andb_false_iff in H as [H|H];
    apply negb_false_iff, bool_decide_eq_true in H; auto.
Qed.

(** A pairing of two players who have met is made only when every other
    unpaired player of the pool has met [p1] as well. *)
Lemma rematch_only_when_forced pairedIds p1 o :
  find_opponent allPairings pool pairedIds p1 = Some o →
  havePlayed allPairings p1 o = true →
  ∀ c, c ∈ pool → Player.id c ≠ Player.id p1 → Player.id c ∉ pairedIds →
       havePlayed allPairings p1 c = true.
Proof.
  unfold find_opponent.
  destruct (find _ pool) as [o'|] eqn:E1.
  - intros [= <-] Hmet. apply find_some in E1 as [_ H].
    rewrite Hmet, andb_false_r in H. done.
  - intros _ _ c Hc Hne Hnp. apply list_elem_of_In in Hc.
    pose proof (find_none _ _ E1 c Hc) as H. simpl in H.
    apply andb_false_iff in H as [H|H].
    + apply negb_false_iff, orb_true_iff in H as [H|H];
        apply bool_decide_eq_true in H; done.
    + by apply negb_false_iff in H.
Qed.

Lemma two_player_ids_length new :
  Forall two_player new → length (flat_map np_ids new) = (2 * length new)%nat.
Proof.
  induction 1 as [|q new [[b Hb] _] _ IH]; simpl; [done|].
  unfold np_ids at 1. rewrite Hb. simpl. lia.
Qed.

Hypothesis pool_ids : NoDup (map Player.id pool).
Hypothesis pool_even : Z.of_nat (length pool) mod 2 = 0.

Lemma pair_step_inv acc0 st new p1 :
  p1 ∈ pool → loop_inv pool acc0 st new →
  ∃ new', loop_inv pool acc0 (pair_step allPairings pool st p1) new'
          ∧ st.1 ⊆ (pair_step allPairings pool st p1).1
          ∧ Player.id p1 ∈ (pair_step allPairings pool st p1).1.
Proof.
  intros Hp1 Hinv. destruct st as [S acc].
  destruct Hinv as (Hacc & Htwo & Hnd & HS & Hsub). simpl in *.
  assert (Hp1P : Player.id p1 ∈ (list_to_set (map Player.id pool) : gset Z)).
  { apply elem_of_list_to_set, list_elem_of_fmap. eauto. }
  unfold pair_step. case_bool_decide as Hin.
  { exists new. repeat split; auto. }
  destruct (find_opponent allPairings pool S p1) as [o|] eqn:Ho.
  - apply find_opponent_Some in Ho as (Hopool & Hne & HoS).
    exists (new ++ [NewPairing (Player.id p1) (Some (Player.id o)) None]).
    simpl. repeat split.
    + by rewrite Hacc, app_assoc.
    + apply Forall_app. split; [done|]. repeat constructor. simpl. eauto.
    + rewrite flat_map_app. simpl. apply NoDup_app. split; [done|].
      split.
      * intros x Hx. rewrite HS in Hin, HoS.
        rewrite elem_of_list_to_set in Hin, HoS.
        rewrite !elem_of_cons, elem_of_nil. naive_solver.
      * apply NoDup_cons. split; [set_solver|]. apply NoDup_singleton.
    + rewrite flat_map_app, list_to_set_app_L, <- HS. simpl.
      unfold np_ids. simpl. set_solver.
    + assert (Player.id o ∈ (list_to_set (map Player.id pool) : gset Z)).
      { apply elem_of_list_to_set, list_elem_of_fmap. eauto. }
      set_solver.
    + set_solver.
    + set_solver.
  - exfalso.
    pose proof (find_opponent_None _ _ Ho) as Hall.
    assert (HP : (list_to_set (map Player.id pool) : gset Z)
                 = {[Player.id p1]} ∪ S).
    { apply set_eq. intros i. split.
      - rewrite elem_of_list_to_set, list_elem_of_fmap.
        intros (x & -> & Hx). destruct (Hall x Hx); set_solver.
      - set_solver. }
    apply (f_equal size) in HP.
    rewrite size_list_to_set, length_map in HP by done.
    rewrite size_union, size_singleton in HP by set_solver.
    rewrite HS, size_list_to_set, two_player_ids_length in HP by done.
    clear -HP pool_even. lia_mod.
Qed.

Lemma pair_fold_inv acc0 l :
  ∀ st new, Forall (λ x, x ∈ pool) l → loop_inv pool acc0 st new →
  ∃ new',
    loop_inv pool acc0 (fold_left (pair_step allPairings pool) l st) new'
    ∧ st.1 ⊆ (fold_left (pair_step allPairings pool) l st).1
    ∧ ∀ x, x ∈ l →
        Player.id x ∈ (fold_left (pair_step allPairings pool) l st).1.
Proof.
  induction l as [|p1 l IH]; intros st new Hl Hinv; simpl.
  - exists new. split; [done|]. split; [done|].
    intros x Hx. by apply elem_of_nil in Hx.
  - apply Forall_cons in Hl as [Hp1 Hl].
    destruct (pair_step_inv acc0 st new p1 Hp1 Hinv) as (new1 & H1 & Hsub1 & Hin1).
    destruct (IH _ new1 Hl H1) as (new2 & H2 & Hsub2 & Hin2).
    exists new2. split; [done|]. split; [set_solver|].
    intros x [->|Hx]%elem_of_cons; [set_solver|auto].
Qed.

(** With distinct ids and an even pool the loop pairs everybody: the
    pairings it adds are games between two players and hold every id of
    the pool exactly once. *)
Lemma pair_loop_pairs_everyone acc0 :
  ∃ new, (pair_loop allPairings pool acc0).2 = acc0 ++ new
         ∧ Forall two_player new
         ∧ flat_map np_ids new ≡ₚ map Player.id pool.
Proof.
  destruct (pair_fold_inv acc0 pool (∅, acc0) []) as (new & Hinv & _ & Hall).
  { by apply Forall_forall. }
  { unfold loop_inv. simpl. rewrite app_nil_r.
    split; [done|]. split; [constructor|]. split; [constructor|].
    split; [done|]. apply empty_subseteq. }
  destruct Hinv as (Hacc & Htwo & Hnd & HS & Hsub).
  exists new. split; [done|]. split; [done|].
  apply NoDup_Permutation; [done..|]. intros i. split.
  - intros Hi. apply (elem_of_list_to_set (C:=gset Z)).
    apply Hsub. rewrite HS. by apply elem_of_list_to_set.
  - intros (x & -> & Hx)%list_elem_of_fmap.
    apply (elem_of_list_to_set (C:=gset Z)). rewrite <- HS. by apply Hall.
Qed.
End PairLoop.

Section GenerateRound.
Import Netlify.

Lemma insert_all tid round nps :
  ∀ d, players (fold_left (insert_pairing tid round) nps d) = players d
       ∧ ∃ rows,
           pairings (fold_left (insert_pairing tid round) nps d)
           = pairings d ++ rows
           ∧ map as_new rows = nps.
Proof.
  induction nps as [|q nps IH]; intros d; simpl.
  - split; [done|]. exists []. by rewrite app_nil_r.
  - destruct (IH (insert_pairing tid round d q)) as (Hpl & rows & Hrows & Hnew).
    split; [by rewrite Hpl|].
    eexists (_ :: rows). rewrite Hrows. simpl. rewrite <- app_assoc. simpl.
    split; [done|]. rewrite Hnew. by destruct q.
Qed.

Lemma choose_bye_spec l :
  l ≠ [] → ∃ b avail, choose_bye l = (Some b, avail) ∧ avail ≡ₚ l ∧ b ∈ l.
Proof.
  intros Hl. unfold choose_bye.
  destruct (head (js_sort by_points_asc (filter _ l))) as [b|] eqn:E.
  - exists b, l. split; [done|]. split; [done|].
    apply js_sort_head_elem in E. by apply list_elem_of_filter in E as [_ ?].
  - destruct (js_sort_head_is_Some by_points_asc l Hl) as [b Hb].
    exists b, (js_sort by_points_asc l). rewrite Hb.
    split; [done|]. split; [apply js_sort_Permutation|].
    by apply js_sort_head_elem in Hb.
Qed.

Lemma filter_all {A} (P : A → Prop) `{∀ x, Decision (P x)} (l : list A) :
  (∀ x, x ∈ l → P x) → filter P l = l.
Proof.
  induction l as [|x l IH]; intros Hl; [done|].
  rewrite filter_cons_True by (apply Hl; left).
  f_equal. apply IH. intros y Hy. apply Hl. by right.
Qed.

Lemma filter_none {A} (P : A → Prop) `{∀ x, Decision (P x)} (l : list A) :
  (∀ x, x ∈ l → ¬ P x) → filter P l = [].
Proof.
  induction l as [|x l IH]; intros Hl; [done|].
  rewrite filter_cons_False by (apply Hl; left).
  apply IH. intros y Hy. apply Hl. by right.
Qed.

Lemma split_off_by_id (b : Player.t) l :
  NoDup (map Player.id l) → b ∈ l →
  Player.id b :: map Player.id (filter (λ p, Player.id p ≠ Player.id b) l)
  ≡ₚ map Player.id l.
Proof.
  induction l as [|x l IH]; intros Hnd Hb; [by apply elem_of_nil in Hb|].
  simpl in Hnd. apply NoDup_cons in Hnd as [Hx Hnd].
  rewrite filter_cons. apply elem_of_cons in Hb as [->|Hb].
  - rewrite decide_False by naive_solver. simpl. f_equiv.
    rewrite filter_all; [done|].
    intros y Hy E. apply Hx. rewrite <- E. apply list_elem_of_fmap. eauto.
  - rewrite decide_True.
    + simpl. rewrite <- (IH Hnd Hb). apply perm_swap.
    + intros E. apply Hx. rewrite E. apply list_elem_of_fmap. eauto.
Qed.

Lemma two_player_counts new :
  Forall two_player new →
  length (filter (λ q, is_Some (np_black_id q)) new) = length new
  ∧ length (filter (λ q, np_black_id q = None) new) = 0%nat.
Proof.
  induction 1 as [|q new [[b Hb] _] _ [IH1 IH2]]; [done|].
  rewrite !filter_cons, decide_True, decide_False by (rewrite Hb; eauto || done).
  simpl. auto.
Qed.

Lemma filter_as_new (P : new_pairing → Prop) `{∀ q, Decision (P q)} rows :
  length (filter (λ r, P (as_new r)) rows)
  = length (filter P (map as_new rows)).
Proof.
  induction rows as [|r rows IH]; [done|]. simpl.
  rewrite !filter_cons. destruct (decide (P (as_new r))); simpl; auto.
Qed.

Lemma count_games rows :
  length (filter (λ p, is_Some (Pairing.black_id p)) rows)
  = length (filter (λ q, is_Some (np_black_id q)) (map as_new rows)).
Proof. exact (filter_as_new (λ q, is_Some (np_black_id q)) rows). Qed.

Lemma count_byes rows :
  length (filter (λ p, Pairing.black_id p = None) rows)
  = length (filter (λ q, np_black_id q = None) (map as_new rows)).
Proof. exact (filter_as_new (λ q, np_black_id q = None) rows). Qed.

Lemma appears_iff_ids i r : appears i r ↔ i ∈ np_ids (as_new r).
Proof.
  unfold appears, np_ids, as_new. simpl.
  destruct (Pairing.black_id r) as [b|];
    rewrite ?elem_of_cons, elem_of_nil; naive_solver.
Qed.

Lemma appears_once i rows :
  NoDup (flat_map np_ids (map as_new rows)) →
  i ∈ flat_map np_ids (map as_new rows) →
  length (filter (appears i) rows) = 1%nat.
Proof.
  induction rows as [|r rows IH]; simpl; intros Hnd Hi.
  - by apply elem_of_nil in Hi.
  - apply NoDup_app in Hnd as (_ & Hdisj & Hnd).
    assert (Hrest : i ∉ flat_map np_ids (map as_new rows) →
                    filter (appears i) rows = []).
    { intros Hni. apply filter_none.
      intros x Hx Happ. apply Hni. apply list_elem_of_In, in_flat_map.
      exists (as_new x). split.
      - apply in_map. by apply list_elem_of_In.
      - by apply list_elem_of_In, appears_iff_ids. }
    rewrite filter_cons. apply elem_of_app in Hi.
    destruct (decide (appears i r)) as [Ha|Hna]; simpl.
    + rewrite Hrest; [done|]. by apply Hdisj, appears_iff_ids.
    + destruct Hi as [Hi|Hi]; [by apply appears_iff_ids in Hi|]. auto.
Qed.

Context (localeCompare : string → string → Z) (tid : Z) (d : db).
Let roster := filter (λ r, Player.tournament_id r = tid) (players d).
Let history := filter (λ r, Pairing.tournament_id r = tid) (pairings d).

(** The two ways through the handler once the roster has two players. *)
Lemma generate_cases :
  (2 ≤ length roster)%nat →
  ∃ round d1 acc0 pool,
    generate localeCompare tid d
    = (201, fold_left (insert_pairing tid round)
              (pair_loop history pool acc0).2 d1)
    ∧ pairings d1 = pairings d
    ∧ ((Z.of_nat (length roster) mod 2 = 0
        ∧ d1 = d ∧ acc0 = [] ∧ pool ≡ₚ roster)
       ∨ (Z.of_nat (length roster) mod 2 ≠ 0
          ∧ ∃ b avail,
              b ∈ roster ∧ avail ≡ₚ roster
              ∧ d1 = Db (award_bye (Player.id b) (players d))
                        (pairings d) (pairings_id_seq d)
              ∧ acc0 = [NewPairing (Player.id b) None (Some "1-0")]
              ∧ pool = filter (λ p, Player.id p ≠ Player.id b) avail)).
Proof.
  intros Hn. unfold generate. fold roster. fold history.
  rewrite bool_decide_eq_false_2 by lia.
  set (sorted := js_sort (by_points_then_name localeCompare) roster).
  assert (Hperm : sorted ≡ₚ roster) by apply js_sort_Permutation.
  assert (Hlen : length sorted = length roster) by by rewrite Hperm.
  rewrite Hlen. case_bool_decide as Hpar.
  - destruct (choose_bye_spec sorted) as (b & avail & Hcb & Hav & Hb).
    { intros E. rewrite E in Hlen. simpl in Hlen. lia. }
    rewrite Hcb. eexists _, _, _, _. split; [done|]. split; [done|].
    right. split; [done|]. exists b, avail.
    split; [by rewrite <- Hperm|]. split; [by rewrite Hav|]. done.
  - eexists _, _, _, _. split; [done|]. split; [done|].
    left. split; [lia|done].
Qed.

(** Whatever the history, with at least two players of distinct ids the
    handler commits a round in which every player of the roster appears
    exactly once: a bye for one player when the roster is odd, games
    between two players for all others. *)
Lemma generate_round_complete :
  (2 ≤ length roster)%nat →
  NoDup (map Player.id roster) →
  ∃ d' rows,
    generate localeCompare tid d = (201, d')
    ∧ pairings d' = pairings d ++ rows
    ∧ flat_map np_ids (map as_new rows) ≡ₚ map Player.id roster
    ∧ length (filter (λ p, is_Some (Pairing.black_id p)) rows)
      = (length roster / 2)%nat
    ∧ length (filter (λ p, Pairing.black_id p = None) rows)
      = (length roster mod 2)%nat.
Proof.
  intros Hn Hnd.
  destruct (generate_cases Hn) as (round & d1 & acc0 & pool & Hgen & Hd1 & Hcase).
  destruct (insert_all tid round (pair_loop history pool acc0).2 d1)
    as (_ & rows & Hrows & Hnew).
  rewrite Hd1 in Hrows.
  eexists _, rows. split; [exact Hgen|]. split; [exact Hrows|].
  rewrite count_games, count_byes.
  rewrite Hnew.
  destruct Hcase as [(Heven & _ & -> & Hpool)
                    |(Hodd & b & avail & Hb & Hav & _ & -> & ->)].
  - destruct (pair_loop_pairs_everyone history pool) with (acc0 := @nil new_pairing)
      as (new & -> & Htwo & Hids).
    { by rewrite Hpool. }
    { by rewrite Hpool. }
    cbn [app]. destruct (two_player_counts new Htwo) as [-> ->].
    pose proof (two_player_ids_length new Htwo) as Hl.
    rewrite Hids, length_map, Hpool in Hl.
    split; [by rewrite Hids, Hpool|]. split; lia_mod.
  - set (pool := filter (λ p, Player.id p ≠ Player.id b) avail).
    assert (Hsplit : Player.id b :: map Player.id pool ≡ₚ map Player.id roster).
    { rewrite <- Hav. apply split_off_by_id; by rewrite Hav. }
    assert (Hlen : S (length pool) = length roster).
    { apply Permutation_length in Hsplit. simpl in Hsplit.
      by rewrite !length_map in Hsplit. }
    assert (Hndp : NoDup (map Player.id pool)).
    { rewrite <- Hsplit in Hnd. by apply NoDup_cons in Hnd as [_ ?]. }
    destruct (pair_loop_pairs_everyone history pool Hndp) 
      with (acc0 := [NewPairing (Player.id b) None (Some "1-0")])
      as (new & -> & Htwo & Hids).
    { lia_mod. }
    cbn [app flat_map]. unfold np_ids at 1. cbn [np_black_id np_white_id app].
    rewrite filter_cons_False by (by intros [? ?]).
    rewrite filter_cons_True by done.
    cbn [length]. destruct (two_player_counts new Htwo) as [-> ->].
    pose proof (two_player_ids_length new Htwo) as Hl.
    rewrite Hids, length_map in Hl.
    split; [by rewrite Hids|]. split; lia_mod.
Qed.
End GenerateRound.

(** C3. With at least two players of distinct ids and no pairing yet in the
    tournament, the handler commits a round of [n / 2] games between two
    players and, exactly when [n] is odd, one bye; every player of the roster
    appears in exactly one of the rows added. *)
Theorem generate_first_round (localeCompare : string → string → Z)
    (tid : Z) (d : db) :
  let roster := filter (λ r, Player.tournament_id r = tid) (players d) in
  (2 ≤ length roster)%nat →
  NoDup (map Player.id roster) →
  filter (λ r, Pairing.tournament_id r = tid) (pairings d) = [] →
  ∃ d', Netlify.generate localeCompare tid d = (201, d')
    ∧ pairings d' = pairings d ++ added_rows d d'
    ∧ length (filter (λ p, is_Some (Pairing.black_id p)) (added_rows d d'))
      = (length roster / 2)%nat
    ∧ length (filter (λ p, Pairing.black_id p = None) (added_rows d d'))
      = (length roster mod 2)%nat
    ∧ ∀ pl, pl ∈ roster →
        length (filter (appears (Player.id pl)) (added_rows d d')) = 1%nat.
Proof.
  intros roster Hn Hnd _.
  destruct (generate_round_complete localeCompare tid d Hn Hnd)
    as (d' & rows & Hgen & Hrows & Hids & Hgames & Hbyes).
  assert (Hadded : added_rows d d' = rows).
  { unfold added_rows. by rewrite Hrows, drop_app_length. }
  exists d'. rewrite Hadded. repeat (split; [done|]).
  intros pl Hpl. apply appears_once.
  - by rewrite Hids.
  - rewrite Hids. apply list_elem_of_fmap. eauto.
Qed.

Lemma generate_first_round_witness :
  ∃ d', Netlify.generate Sample.codepoint_compare 1 Sample.five = (201, d')
    ∧ pairings d' = pairings Sample.five ++ added_rows Sample.five d'
    ∧ length (filter (λ p, is_Some (Pairing.black_id p))
                (added_rows Sample.five d'))
      = (length (filter (λ r, Player.tournament_id r = 1%Z)
                   (players Sample.five)) / 2)%nat
    ∧ length (filter (λ p, Pairing.black_id p = None)
                (added_rows Sample.five d'))
      = (length (filter (λ r, Player.tournament_id r = 1%Z)
                   (players Sample.five)) mod 2)%nat
    ∧ ∀ pl, pl ∈ filter (λ r, Player.tournament_id r = 1) (players Sample.five) →
        length (filter (appears (Player.id pl)) (added_rows Sample.five d'))
        = 1%nat.
Proof.
  apply (generate_first_round Sample.codepoint_compare 1 Sample.five).
  - vm_compute. lia.
  - by_decide.
  - reflexivity.
Defined.

Section Frame.

End Frame.



(** On an odd roster the serverless handler gives a second bye only when
    no player is left who has not had one. *)
Lemma bye_repeats_only_when_all_had_one l b avail :
  Netlify.choose_bye l = (Some b, avail) →
  Player.had_bye b = true → ∀ x, x ∈ l → Player.had_bye x = true.
Proof.
  unfold Netlify.choose_bye.
  destruct (head (js_sort Netlify.by_points_asc (filter _ l))) as [b'|] eqn:E.
  - intros [= -> _] Hb. apply js_sort_head_elem in E.
    apply list_elem_of_filter in E as [E _]. congruence.
  - intros _ _ x Hx. destruct (Player.had_bye x) eqn:Hx'; [done|].
    assert (Hin : x ∈ filter (λ p, Player.had_bye p = false) l)
      by by apply list_elem_of_filter.
    destruct (js_sort_head_is_Some Netlify.by_points_asc
                (filter (λ p, Player.had_bye p = false) l)) as [y Hy].
    + intros E'. rewrite E' in Hin. by apply elem_of_nil in Hin.
    + rewrite Hy in E. done.
Qed.

(** C4, the serverless handler on five fresh players P1..P5: the canonical
    sort ranks P5 last, yet the bye and its point go to P1, first of the tie
    on points, and P2 to P5 are paired.  The server's handler gives the bye
    to P5 on the same database. *)
Theorem netlify_bye_goes_to_first_of_tie :
  map Player.name
    (js_sort (Netlify.by_points_then_name Sample.codepoint_compare)
       (players Sample.five))
  = ["P1"; "P2"; "P3"; "P4"; "P5"]
  ∧ fst (Netlify.generate Sample.codepoint_compare 1 Sample.five) = 201
  ∧ map (λ r, (Player.name r, Player.points r, Player.had_bye r))
      (players (snd (Netlify.generate Sample.codepoint_compare 1 Sample.five)))
    = [("P1", 2, true); ("P2", 0, false); ("P3", 0, false);
       ("P4", 0, false); ("P5", 0, false)]
  ∧ map Netlify.as_new
      (pairings (snd (Netlify.generate Sample.codepoint_compare 1 Sample.five)))
    = [Netlify.NewPairing 1 None (Some "1-0");
       Netlify.NewPairing 2 (Some 3) None;
       Netlify.NewPairing 4 (Some 5) None]
  ∧ map (λ r, (Player.name r, Player.points r, Player.had_bye r))
      (players (snd (Server.generate Sample.codepoint_compare 1 Sample.five)))
    = [("P1", 0, false); ("P2", 0, false); ("P3", 0, false);
       ("P4", 0, false); ("P5", 2, true)].
Proof. vm_compute. repeat split. Qed.

(** C5, the server's handler on two players who have met: the pool is even,
    the call answers 201 and commits nothing, so both players stay without a
    pairing.  The serverless handler pairs them again on the same database. *)
Theorem server_leaves_rematch_unpaired :
  Server.generate Sample.codepoint_compare 1 Sample.played_game
  = (201, Sample.played_game)
  ∧ added_rows Sample.played_game
      (snd (Netlify.generate Sample.codepoint_compare 1 Sample.played_game))
    = [Pairing.Mk 2 1 2 1 (Some 2) None].
Proof. vm_compute. split; reflexivity. Qed.

(** * Standings *)

Section SortOrder.
Context {A : Type} (cmp : A → A → Z).
Let R (a b : A) : Prop := cmp a b <= 0.
Hypothesis R_trans : ∀ a b c, R a b → R b c → R a c.
Hypothesis R_total : ∀ a b, R a b ∨ R b a.

Lemma sort_insert_sorted x l :
  StronglySorted R l → StronglySorted R (sort_insert cmp x l).
Proof.
  induction 1 as [|y l Hl IH Hy]; simpl.
  - repeat constructor.
  - case_bool_decide as Hxy.
    + constructor; [by constructor|]. constructor; [done|].
      eapply Forall_impl; [exact Hy|]. intros z Hz. by apply R_trans with y.
    + constructor; [done|].
      rewrite sort_insert_Permutation. constructor; [|done].
      by destruct (R_total x y).
Qed.

Lemma js_sort_sorted l : StronglySorted R (js_sort cmp l).
Proof.
  induction l as [|x l IH]; simpl; [constructor|].
  by apply sort_insert_sorted.
Qed.
End SortOrder.

Lemma StronglySorted_weaken {A} (R R' : A → A → Prop) l :
  (∀ a b, R a b → R' a b) → StronglySorted R l → StronglySorted R' l.
Proof.
  intros HR. induction 1 as [|x l _ IH Hx]; constructor; [done|].
  eapply Forall_impl; [exact Hx|]. intros y. apply HR.
Qed.

Section SortStable.
Context {A : Type} (cmp : A → A → Z).
Context (P : A → Prop) `{∀ x, Decision (P x)}.
Hypothesis P_level : ∀ x y, P x → P y → cmp x y <= 0.

Lemma sort_insert_filter x l :
  filter P (sort_insert cmp x l) = filter P (x :: l).
Proof.
  induction l as [|y l IH]; simpl; [done|].
  case_bool_decide as Hxy; [done|].
  rewrite filter_cons, IH, !filter_cons.
  destruct (decide (P y)) as [Hy|Hy], (decide (P x)) as [Hx|Hx]; try done.
  exfalso. apply Hxy. by apply P_level.
Qed.

(** The sort is stable: elements that the comparator ties keep the order
    they had in the array. *)
Lemma js_sort_stable l : filter P (js_sort cmp l) = filter P l.
Proof.
  induction l as [|x l IH]; simpl; [done|].
  by rewrite sort_insert_filter, !filter_cons, IH.
Qed.
End SortStable.

Section Standings.
Context (roster : list Player.t).

Lemma ranks_before_cmp a b : ranks_before a b ↔ by_points_then_buchholz a b <= 0.
Proof.
  unfold ranks_before, by_points_then_buchholz. simpl.
  case_bool_decide; lia.
Qed.

Lemma buchholz_sum opps :
  buchholz roster opps = foldr Z.add 0 (map (current_points roster) opps).
Proof.
  unfold buchholz. 
  assert (Hgen : ∀ acc,
    fold_left (λ sum oppId,
        match find (λ p, bool_decide (Player.id p = oppId)) roster with
        | Some opponent => sum + Player.points opponent
        | None => sum + 0
        end) opps acc
    = acc + foldr Z.add 0 (map (current_points roster) opps)).
  { induction opps as [|o opps IH]; intros acc; simpl; [lia|].
    rewrite IH. unfold current_points.
    destruct (find _ roster); lia. }
  rewrite Hgen. lia.
Qed.

(** Under serial ids the handler's filter-map-filter pipeline keeps, in
    order, the opponent of every pairing in which the player faced one. *)
Lemma opponentIds_faced rows player :
  serial_ids rows →
  opponentIds rows player = omap (opponent_faced (Player.id player)) rows.
Proof.
  unfold opponentIds, serial_ids.
  induction 1 as [|p rows [Hw Hb] _ IH]; [done|].
  rewrite filter_cons. cbn [omap list_omap]. fold (omap (opponent_faced (Player.id player)) rows).
  rewrite <- IH. unfold opponent_faced at 1.
  destruct (decide (Pairing.white_id p = Player.id player)) as [Ew|Ew].
  - rewrite decide_True by (by left). rewrite (bool_decide_eq_true_2 _ Ew).
    simpl. rewrite (bool_decide_eq_true_2 _ Ew).
    destruct (Pairing.black_id p) as [b|]; [|done].
    rewrite bool_decide_eq_false_2 by congruence. done.
  - rewrite (bool_decide_eq_false_2 _ Ew).
    destruct (decide (Pairing.black_id p = Some (Player.id player))) as [Eb|Eb].
    + rewrite decide_True by (by right). rewrite (bool_decide_eq_true_2 _ Eb).
      simpl. rewrite (bool_decide_eq_false_2 _ Ew).
      rewrite bool_decide_eq_false_2 by done. done.
    + rewrite decide_False by (by intros [?|?]).
      by rewrite (bool_decide_eq_false_2 _ Eb).
Qed.

Lemma tiebreak_of_faced rows player :
  foldr Z.add 0
    (map (current_points roster)
       (omap (opponent_faced (Player.id player)) rows))
  = tiebreak_spec roster rows player.
Proof.
  unfold tiebreak_spec. induction rows as [|p rows IH]; [done|].
  cbn [omap list_omap map foldr].
  fold (omap (opponent_faced (Player.id player)) rows).
  destruct (opponent_faced (Player.id player) p); simpl; rewrite <- IH; done.
Qed.

Lemma games_of_faced rows player :
  length (omap (opponent_faced (Player.id player)) rows)
  = games_spec rows player.
Proof.
  unfold games_spec. induction rows as [|p rows IH]; [done|].
  cbn [omap list_omap]. fold (omap (opponent_faced (Player.id player)) rows).
  rewrite filter_cons.
  destruct (opponent_faced (Player.id player) p) eqn:E.
  - rewrite decide_True by eauto. simpl. by rewrite IH.
  - rewrite decide_False by (by intros [? ?]). done.
Qed.

Lemma opponentIds_app rows1 rows2 player :
  opponentIds (rows1 ++ rows2) player
  = opponentIds rows1 player ++ opponentIds rows2 player.
Proof.
  unfold opponentIds, filter_Boolean.
  by rewrite filter_app, map_app, omap_app.
Qed.

Lemma opponentIds_bye bye player :
  Pairing.black_id bye = None → opponentIds [bye] player = [].
Proof.
  intros Hb. unfold opponentIds. rewrite filter_cons, filter_nil.
  destruct (decide _) as [[Ew|Eb]|_]; simpl; [|congruence|done].
  by rewrite (bool_decide_eq_true_2 _ Ew), Hb.
Qed.
End Standings.

(** C8, the claim as stated fails: two players level on points and tiebreak
    are listed B before A, the order of their rows, although A sorts before
    B by name. *)
Lemma standings_ignore_names :
  map Nombre (standings 1 Sample.level_pair) = ["B"; "A"]
  ∧ map Puntos (standings 1 Sample.level_pair) = [0; 0]
  ∧ map Buchholz (standings 1 Sample.level_pair) = [0; 0]
  ∧ Sample.codepoint_compare "A" "B" = -1.
Proof. vm_compute. repeat split. Qed.

(** C8, amended. Each player's tiebreak is the sum of the current points of
    the opponents faced over all pairings, a bye adding nothing; the
    standings hold one entry per player of the roster, ordered by points
    descending, then tiebreak descending; entries level on both keys keep
    the order of the roster's rows: the name is not a sort key. *)
Theorem standings_tiebreak_and_order (tid : Z) (d : db) :
  let roster := filter (λ r, Player.tournament_id r = tid) (players d) in
  let rows := filter (λ r, Pairing.tournament_id r = tid) (pairings d) in
  serial_ids rows →
  standings tid d ≡ₚ map (standing_of roster rows) roster
  ∧ (∀ player,
       Nombre (standing_of roster rows player) = Player.name player
       ∧ Puntos (standing_of roster rows player) = Player.points player
       ∧ Buchholz (standing_of roster rows player)
         = tiebreak_spec roster rows player)
  ∧ StronglySorted ranks_before (standings tid d)
  ∧ (∀ s, filter (λ t, Puntos t = Puntos s ∧ Buchholz t = Buchholz s)
            (standings tid d)
          = filter (λ t, Puntos t = Puntos s ∧ Buchholz t = Buchholz s)
              (map (standing_of roster rows) roster)).
Proof.
  intros roster rows Hserial. unfold standings. fold roster rows.
  split; [apply js_sort_Permutation|]. split; [|split].
  - intros player. repeat split.
    unfold standing_of. simpl.
    by rewrite buchholz_sum, opponentIds_faced, tiebreak_of_faced.
  - eapply StronglySorted_weaken; [intros a b; apply ranks_before_cmp|].
    apply js_sort_sorted.
    + unfold by_points_then_buchholz. intros a b c. simpl.
      repeat case_bool_decide; lia.
    + unfold by_points_then_buchholz. intros a b. simpl.
      repeat case_bool_decide; lia.
  - intros s. apply js_sort_stable.
    unfold by_points_then_buchholz. intros x y [? ?] [? ?]. simpl.
    case_bool_decide; lia.
Qed.

Lemma standings_tiebreak_and_order_witness :
  let d := Sample.after_bye in
  let roster := filter (λ r, Player.tournament_id r = 1) (players d) in
  let rows := filter (λ r, Pairing.tournament_id r = 1) (pairings d) in
  standings 1 d ≡ₚ map (standing_of roster rows) roster
  ∧ (∀ player,
       Nombre (standing_of roster rows player) = Player.name player
       ∧ Puntos (standing_of roster rows player) = Player.points player
       ∧ Buchholz (standing_of roster rows player)
         = tiebreak_spec roster rows player)
  ∧ StronglySorted ranks_before (standings 1 d)
  ∧ (∀ s, filter (λ t, Puntos t = Puntos s ∧ Buchholz t = Buchholz s)
            (standings 1 d)
          = filter (λ t, Puntos t = Puntos s ∧ Buchholz t = Buchholz s)
              (map (standing_of roster rows) roster)).
Proof.
  intros d.
  apply (standings_tiebreak_and_order 1 d).
  unfold serial_ids. by_decide.
Defined.

(** C10. Every entry of the standings is the entry of a player of the
    roster, and its count of games is the number of pairings in which that
    player faced a present opponent; a bye row adds nothing to anyone's
    count. *)
Theorem games_played_excludes_byes (tid : Z) (d : db) :
  let roster := filter (λ r, Player.tournament_id r = tid) (players d) in
  let rows := filter (λ r, Pairing.tournament_id r = tid) (pairings d) in
  serial_ids rows →
  (∀ s, s ∈ standings tid d →
     ∃ player, player ∈ roster ∧ s = standing_of roster rows player
               ∧ Partidas s = games_spec rows player)
  ∧ (∀ player bye, Pairing.black_id bye = None →
       Partidas (standing_of roster (rows ++ [bye]) player)
       = Partidas (standing_of roster rows player)).
Proof.
  intros roster rows Hserial. split.
  - intros s Hs. unfold standings in Hs. fold roster rows in Hs.
    rewrite js_sort_Permutation in Hs.
    apply list_elem_of_fmap in Hs as (player & -> & Hin).
    exists player. repeat split; [done|].
    unfold standing_of. simpl.
    by rewrite opponentIds_faced, games_of_faced.
  - intros player bye Hbye. unfold standing_of. simpl.
    by rewrite opponentIds_app, (opponentIds_bye bye player Hbye), app_nil_r.
Qed.

Lemma games_played_excludes_byes_witness :
  let d := Sample.after_bye in
  let roster := filter (λ r, Player.tournament_id r = 1) (players d) in
  let rows := filter (λ r, Pairing.tournament_id r = 1) (pairings d) in
  (∀ s, s ∈ standings 1 d →
     ∃ player, player ∈ roster ∧ s = standing_of roster rows player
               ∧ Partidas s = games_spec rows player)
  ∧ (∀ player bye, Pairing.black_id bye = None →
       Partidas (standing_of roster (rows ++ [bye]) player)
       = Partidas (standing_of roster rows player)).
Proof.
  intros d.
  apply (games_played_excludes_byes 1 d).
  unfold serial_ids. by_decide.
Defined.

(** * More on the result ledger *)

Section LedgerMore.

Lemma result_points_cases r :
  (r = "1-0" ∧ result_points r = (2, 0))
  ∨ (r = "0-1" ∧ result_points r = (0, 2))
  ∨ (r = "0.5-0.5" ∧ result_points r = (1, 1))
  ∨ ((r ∉ valid_results) ∧ result_points r = (0, 0)).
Proof.
  unfold result_points, valid_results.
  repeat case_bool_decide; subst; auto.
  right; right; right. split; [|done].
  rewrite !elem_of_cons, elem_of_nil. naive_solver.
Qed.

Lemma valid_result_points r :
  r ∈ valid_results → (result_points r).1 + (result_points r).2 = 2.
Proof.
  destruct (result_points_cases r) as [[_ ->]|[[_ ->]|[[_ ->]|[? _]]]]; done.
Qed.

Lemma invalid_result_points r :
  r ∉ valid_results → result_points r = (0, 0).
Proof.
  destruct (result_points_cases r) as [[-> _]|[[-> _]|[[-> _]|[_ ?]]]];
    try done; intros H; exfalso; apply H; by_decide.
Qed.

(** The reversal of the serverless handler, spelled as the server's chain
    of tests. *)
Lemma reverseResult_chain p old rows :
  Netlify.reverseResult p old rows
  = if bool_decide (Some old = Some "1-0")
    then add_points (-2) (Some (Pairing.white_id p)) rows
    else if bool_decide (Some old = Some "0-1")
    then add_points (-2) (Pairing.black_id p) rows
    else if bool_decide (Some old = Some "0.5-0.5")
    then add_points (-1) (Pairing.black_id p)
           (add_points (-1) (Some (Pairing.white_id p)) rows)
    else rows.
Proof.
  unfold Netlify.reverseResult, result_points.
  repeat case_bool_decide; simplify_eq; simpl;
    rewrite ?add_points_0; done.
Qed.

Lemma applyResult_chain p new rows :
  Netlify.applyResult p new rows
  = if bool_decide (new = "1-0")
    then add_points 2 (Some (Pairing.white_id p)) rows
    else if bool_decide (new = "0-1")
    then add_points 2 (Pairing.black_id p) rows
    else if bool_decide (new = "0.5-0.5")
    then add_points 1 (Pairing.black_id p)
           (add_points 1 (Some (Pairing.white_id p)) rows)
    else rows.
Proof.
  unfold Netlify.applyResult, result_points.
  repeat case_bool_decide; simplify_eq; simpl;
    rewrite ?add_points_0; done.
Qed.

Lemma truthy_default old : truthy old = true → Some (default "" old) = old.
Proof. by destruct old. Qed.

End LedgerMore.

(** X1. Whatever result the pairing holds, and also when the pairing does
    not exist, entering [A] and then [B] leaves the database and the answer
    that entering [B] alone gives. *)
Theorem setResult_last_write_wins (d : db) (pid : Z) (A B : string) :
  A ∈ valid_results → B ∈ valid_results →
  Netlify.setResult pid B (snd (Netlify.setResult pid A d))
  = Netlify.setResult pid B d.
Proof.
  intros HA HB.
  destruct (select_pairing pid (pairings d)) as [p|] eqn:Hp.
  - rewrite (setResult_found pid A d p HA Hp).
    rewrite (setResult_found pid B d p HB Hp).
    erewrite setResult_found; [|done|by apply select_update].
    change (Pairing.result (Pairing.set_result (Some A) p)) with (Some A).
    rewrite (valid_result_truthy A HA).
    cbn [pairings players pairings_id_seq default from_option id snd].
    rewrite update_update. do 2 f_equal.
    unfold Netlify.applyResult at 2. unfold Netlify.reverseResult at 1.
    cbn [Pairing.white_id Pairing.black_id Pairing.set_result].
    destruct (result_points A) as [w b]. by rewrite give_take.
  - unfold Netlify.setResult.
    rewrite !bool_decide_eq_true_2 by done. simpl. by rewrite Hp; simpl; rewrite Hp.
Qed.

Lemma setResult_last_write_wins_witness :
  Netlify.setResult 1 "0-1"
    (snd (Netlify.setResult 1 "0.5-0.5" Sample.played_game))
  = Netlify.setResult 1 "0-1" Sample.played_game.
Proof.
  apply (setResult_last_write_wins Sample.played_game 1 "0.5-0.5" "0-1").
  - by_decide.
  - by_decide.
Defined.

(** X2. The server's handler and the serverless handler leave the same
    database on every request; their answers differ only for a pairing that
    does not exist, 404 against 500. *)
Theorem server_setResult_agrees (pid : Z) (r : string) (d : db) :
  snd (Server.setResult pid r d) = snd (Netlify.setResult pid r d)
  ∧ (fst (Server.setResult pid r d) = fst (Netlify.setResult pid r d)
     ∨ (r ∈ valid_results ∧ select_pairing pid (pairings d) = None
        ∧ fst (Server.setResult pid r d) = 404
        ∧ fst (Netlify.setResult pid r d) = 500)).
Proof.
  unfold Server.setResult, Netlify.setResult.
  case_bool_decide as Hr; simpl; [|auto].
  destruct (select_pairing pid (pairings d)) as [p|]; simpl; [|by auto 6].
  split; [|auto]. do 2 f_equal.
  rewrite applyResult_chain.
  destruct (truthy (Pairing.result p)) eqn:Ht; [|done].
  rewrite reverseResult_chain, (truthy_default _ Ht). done.
Qed.

(** X3. For a result among the three strings the router of [api.js] leaves
    the database the serverless handler leaves, whatever result the pairing
    holds. *)
Theorem api_setResult_agrees_on_valid (pid : Z) (r : string) (d : db) :
  r ∈ valid_results →
  snd (Api.setResult pid r d) = snd (Netlify.setResult pid r d).
Proof.
  intros Hr. unfold Api.setResult, Netlify.setResult.
  rewrite (bool_decide_eq_true_2 (r ∈ valid_results)) by done. simpl.
  destruct (select_pairing pid (pairings d)) as [p|]; simpl; [|done].
  do 2 f_equal. rewrite applyResult_chain.
  assert (Hrev :
    (if truthy (Pairing.result p)
     then Netlify.reverseResult p (default "" (Pairing.result p)) (players d)
     else players d)
    = (if truthy (Pairing.result p)
       then
         let r0 := players d in
         let r1 := if bool_decide (Pairing.result p = Some "1-0")
                   then add_points (-2) (Some (Pairing.white_id p)) r0
                   else r0 in
         let r2 := if bool_decide (Pairing.result p = Some "0-1")
                   then add_points (-2) (Pairing.black_id p) r1 else r1 in
         if bool_decide (Pairing.result p = Some "0.5-0.5")
         then add_points (-1) (Pairing.black_id p)
                (add_points (-1) (Some (Pairing.white_id p)) r2)
         else r2
       else players d)).
  { destruct (truthy (Pairing.result p)) eqn:Ht; [|done].
    rewrite reverseResult_chain, (truthy_default _ Ht). simpl.
    repeat case_bool_decide; congruence. }
  rewrite Hrev. clear Hrev.
  unfold valid_results in Hr. rewrite !elem_of_cons, elem_of_nil in Hr.
  destruct Hr as [-> | [-> | [-> | []]]];
    repeat (case_bool_decide; try done).
Qed.

Lemma api_setResult_agrees_on_valid_witness :
  snd (Api.setResult 1 "0.5-0.5" Sample.played_game)
  = snd (Netlify.setResult 1 "0.5-0.5" Sample.played_game).
Proof.
  apply (api_setResult_agrees_on_valid 1 "0.5-0.5" Sample.played_game).
  by_decide.
Defined.

Section LedgerTotals.

Lemma add_points_ids delta param rows :
  map Player.id (add_points delta param rows) = map Player.id rows.
Proof.
  unfold add_points. rewrite map_map. apply map_ext; intros r.
  apply add_points_row_id.
Qed.

Lemma add_points_absent delta i rows :
  i ∉ map Player.id rows → add_points delta (Some i) rows = rows.
Proof.
  intros Hi. unfold add_points. rewrite <- (map_id rows) at 2.
  apply map_ext_in. intros r Hr. unfold add_points_row, sql_id_eq.
  rewrite bool_decide_eq_false_2; [done|].
  intros E. apply Hi. rewrite <- E. apply list_elem_of_fmap.
  exists r. split; [done|]. by apply list_elem_of_In.
Qed.

Lemma total_points_add delta i rows :
  NoDup (map Player.id rows) → i ∈ map Player.id rows →
  total_points (add_points delta (Some i) rows) = total_points rows + delta.
Proof.
  unfold total_points.
  induction rows as [|r rows IH]; simpl; intros Hnd Hi.
  - by apply elem_of_nil in Hi.
  - apply NoDup_cons in Hnd as [Hr Hnd].
    unfold add_points_row at 1, sql_id_eq.
    case_bool_decide as E; simpl.
    + subst i. fold (add_points delta (Some (Player.id r)) rows).
      rewrite add_points_absent by done. lia.
    + apply elem_of_cons in Hi as [Hi|Hi]; [congruence|].
      fold (add_points delta (Some i) rows).
      unfold add_points in *. rewrite IH by done. lia.
Qed.

Lemma total_points_add_opt delta param rows :
  NoDup (map Player.id rows) →
  (∀ i, param = Some i → i ∈ map Player.id rows) →
  total_points (add_points delta param rows)
  = total_points rows + match param with Some _ => delta | None => 0 end.
Proof.
  intros Hnd Hin. destruct param as [i|].
  - apply total_points_add; auto.
  - rewrite add_points_None. lia.
Qed.

Lemma total_points_give w b (p : Pairing.t) rows :
  NoDup (map Player.id rows) →
  Pairing.white_id p ∈ map Player.id rows →
  (∀ i, Pairing.black_id p = Some i → i ∈ map Player.id rows) →
  total_points (add_points b (Pairing.black_id p)
                  (add_points w (Some (Pairing.white_id p)) rows))
  = total_points rows + w
    + match Pairing.black_id p with Some _ => b | None => 0 end.
Proof.
  intros Hnd Hw Hb.
  rewrite total_points_add_opt, total_points_add;
    rewrite ?add_points_ids; auto.
Qed.

Lemma add_points_lookup delta param rows i (row : Player.t) :
  rows !! i = Some row →
  add_points delta param rows !! i = Some (add_points_row delta param row).
Proof.
  intros Hi. unfold add_points. apply list_lookup_fmap_Some. eauto.
Qed.

Lemma same_but_points_refl r : same_but_points r r.
Proof. unfold same_but_points. by destruct r. Qed.

Lemma same_but_points_add delta param r r' :
  same_but_points r r' → same_but_points r (add_points_row delta param r').
Proof.
  unfold same_but_points, add_points_row. intros E.
  destruct (sql_id_eq _ _); [|done].
  rewrite E at 2. by destruct r.
Qed.

Lemma add_points_row_other delta param r :
  Some (Player.id r) ≠ param → add_points_row delta param r = r.
Proof.
  intros Hne. unfold add_points_row, sql_id_eq. destruct param as [i|]; [|done].
  rewrite bool_decide_eq_false_2; [done|congruence].
Qed.

End LedgerTotals.

(** X4. A game distributes exactly one point.  On a table with distinct
    ids that holds both players, entering a result for a pending game adds
    one point to the total of all players, and replacing one of the three
    results by another leaves the total as it is. *)
Theorem setResult_distributes_one_point (d : db) (pid : Z) (p : Pairing.t)
    (black : Z) (r : string) :
  NoDup (map Player.id (players d)) →
  r ∈ valid_results →
  select_pairing pid (pairings d) = Some p →
  Pairing.black_id p = Some black →
  Pairing.white_id p ∈ map Player.id (players d) →
  black ∈ map Player.id (players d) →
  let after := players (snd (Netlify.setResult pid r d)) in
  (Pairing.result p = None → total_points after = total_points (players d) + 2)
  ∧ (∀ old, Pairing.result p = Some old → old ∈ valid_results →
       total_points after = total_points (players d)).
Proof.
  intros Hnd Hr Hp Hb Hw Hbl after. subst after.
  rewrite (setResult_found pid r d p Hr Hp).
  cbn [snd players].
  pose proof (valid_result_points r Hr) as Hsum.
  assert (Hbin : ∀ i, Pairing.black_id p = Some i → i ∈ map Player.id (players d))
    by (intros i; rewrite Hb; by intros [= <-]).
  split.
  - intros ->. simpl. unfold Netlify.applyResult.
    destruct (result_points r) as [w b]. simpl in Hsum.
    rewrite total_points_give by done. rewrite Hb. lia.
  - intros old -> Hold. rewrite (valid_result_truthy old Hold).
    cbn [default from_option id].
    pose proof (valid_result_points old Hold) as Hsum'.
    unfold Netlify.applyResult, Netlify.reverseResult.
    destruct (result_points r) as [w b], (result_points old) as [w' b'].
    simpl in Hsum, Hsum'.
    rewrite total_points_give; rewrite ?add_points_ids; auto.
    rewrite total_points_give by done. rewrite Hb. lia.
Qed.

Lemma setResult_distributes_one_point_witness :
  let after :=
    players (snd (Netlify.setResult 1 "0.5-0.5" Sample.played_game)) in
  (Some "1-0" = None →
   total_points after = total_points (players Sample.played_game) + 2)
  ∧ (∀ old, Some "1-0" = Some old → old ∈ valid_results →
       total_points after = total_points (players Sample.played_game)).
Proof.
  apply (setResult_distributes_one_point Sample.played_game 1
           (Pairing.Mk 1 1 1 1 (Some 2) (Some "1-0")) 2 "0.5-0.5").
  - by_decide.
  - by_decide.
  - reflexivity.
  - reflexivity.
  - by_decide.
  - by_decide.
Defined.

(** X5. A result update touches nothing but points and the one result
    column: every row of the players table keeps its id, tournament, name,
    grade, school and bye flag, rows of players other than the two of the
    pairing are unchanged, a pairing row either is unchanged or is the
    addressed row with its result replaced, and a call that finds no pairing
    or is turned down changes nothing. *)
Theorem setResult_frame (pid : Z) (r : string) (d : db) :
  let d' := snd (Netlify.setResult pid r d) in
  (∀ i row, players d !! i = Some row →
     ∃ row', players d' !! i = Some row'
             ∧ same_but_points row row'
             ∧ (∀ p, select_pairing pid (pairings d) = Some p →
                  Player.id row ≠ Pairing.white_id p →
                  Some (Player.id row) ≠ Pairing.black_id p → row' = row))
  ∧ (∀ i q, pairings d !! i = Some q →
       ∃ q', pairings d' !! i = Some q'
             ∧ (q' = q ∨ (Pairing.id q = pid
                          ∧ q' = Pairing.set_result (Some r) q)))
  ∧ pairings_id_seq d' = pairings_id_seq d
  ∧ (fst (Netlify.setResult pid r d) ≠ 200 → d' = d).
Proof.
  intros d'. subst d'. unfold Netlify.setResult.
  case_bool_decide as Hr; simpl.
  2:{ repeat split; eauto using same_but_points_refl. }
  destruct (select_pairing pid (pairings d)) as [p|] eqn:Hp; simpl.
  2:{ repeat split; eauto using same_but_points_refl. }
  split; [|split; [|split; [done|done]]].
  - intros i row Hi.
    unfold Netlify.applyResult, Netlify.reverseResult.
    destruct (result_points r) as [w b].
    destruct (result_points (default "" (Pairing.result p))) as [w' b'].
    destruct (truthy (Pairing.result p)).
    + eexists. split.
      { do 4 (apply add_points_lookup). exact Hi. }
      split; [by do 4 apply same_but_points_add; apply same_but_points_refl|].
      intros ? [= <-] Hw Hb.
      rewrite (add_points_row_other _ (Some _) row) by congruence.
      rewrite (add_points_row_other _ (Pairing.black_id p) row) by done.
      rewrite (add_points_row_other _ (Some _) row) by congruence.
      by rewrite (add_points_row_other _ (Pairing.black_id p) row).
    + eexists. split.
      { do 2 (apply add_points_lookup). exact Hi. }
      split; [by do 2 apply same_but_points_add; apply same_but_points_refl|].
      intros ? [= <-] Hw Hb.
      rewrite (add_points_row_other _ (Some _) row) by congruence.
      by rewrite (add_points_row_other _ (Pairing.black_id p) row).
  - intros i q Hi. unfold update_result. eexists. split.
    { apply list_lookup_fmap_Some. eauto. }
    simpl. case_bool_decide; auto.
Qed.

(** * More on the serverless generator *)

Section GenerateMore.
Import Netlify.

Lemma fold_max_ge xs : ∀ x, x <= fold_left Z.max xs x
                            ∧ ∀ y, y ∈ xs → y <= fold_left Z.max xs x.
Proof.
  induction xs as [|z xs IH]; intros x; simpl.
  - split; [lia|]. intros y Hy. by apply elem_of_nil in Hy.
  - destruct (IH (Z.max x z)) as [H1 H2]. split; [lia|].
    intros y [->|Hy]%elem_of_cons; [lia|auto].
Qed.

Lemma js_max_ge xs y : y ∈ xs → y <= js_max xs.
Proof.
  destruct xs as [|x xs]; simpl; [by intros ?%elem_of_nil|].
  destruct (fold_max_ge xs x) as [H1 H2].
  intros [->|Hy]%elem_of_cons; auto.
Qed.

Lemma insert_all_rows tid round nps :
  ∀ d, ∃ rows,
    pairings (fold_left (insert_pairing tid round) nps d) = pairings d ++ rows
    ∧ Forall (λ r, Pairing.tournament_id r = tid
                   ∧ Pairing.round_number r = round) rows
    ∧ map Pairing.id rows
      = map (λ k, pairings_id_seq d + Z.of_nat k) (seq 0 (length nps)).
Proof.
  induction nps as [|q nps IH]; intros d; simpl.
  - exists []. by rewrite app_nil_r.
  - destruct (IH (insert_pairing tid round d q)) as (rows & Hrows & Hall & Hids).
    eexists (_ :: rows). rewrite Hrows. simpl. rewrite <- app_assoc. simpl.
    split; [done|]. split; [by constructor|].
    simpl. f_equal; [lia|]. rewrite Hids. simpl.
    rewrite <- seq_shift, map_map. apply map_ext. intros k. lia.
Qed.

Context (localeCompare : string → string → Z) (tid : Z) (d : db).
Let roster := filter (λ r, Player.tournament_id r = tid) (players d).
Let history := filter (λ r, Pairing.tournament_id r = tid) (pairings d).

Lemma generate_round_of :
  (2 ≤ length roster)%nat →
  ∃ d1 nps,
    generate localeCompare tid d
    = (201, fold_left
              (insert_pairing tid
                 (if bool_decide (0 < length history)%nat
                  then js_max (map Pairing.round_number history) + 1 else 1))
              nps d1)
    ∧ pairings d1 = pairings d ∧ pairings_id_seq d1 = pairings_id_seq d.
Proof.
  intros Hn. unfold generate. fold roster. fold history.
  rewrite bool_decide_eq_false_2 by lia.
  set (sorted := js_sort (by_points_then_name localeCompare) roster).
  assert (Hlen : length sorted = length roster).
  { unfold sorted. by rewrite js_sort_Permutation. }
  case_bool_decide as Hpar.
  - destruct (choose_bye_spec sorted) as (b & avail & Hcb & _).
    { intros E. rewrite E in Hlen. simpl in Hlen. lia. }
    rewrite Hcb. by eexists _, _.
  - by eexists _, _.
Qed.
End GenerateMore.

(** X6. The serverless generator answers 400 when the tournament has fewer
    than two players and 201 otherwise, so the path that would answer 500 for
    a missing bye player cannot be taken; an answer other than 201 leaves
    the database as it was. *)
Theorem generate_status (localeCompare : string → string → Z)
    (tid : Z) (d : db) :
  let roster := filter (λ r, Player.tournament_id r = tid) (players d) in
  fst (Netlify.generate localeCompare tid d)
  = (if bool_decide (length roster < 2)%nat then 400 else 201)
  ∧ (fst (Netlify.generate localeCompare tid d) ≠ 201 →
     snd (Netlify.generate localeCompare tid d) = d).
Proof.
  intros roster. case_bool_decide as Hn.
  - unfold Netlify.generate. fold roster.
    by rewrite bool_decide_eq_true_2.
  - destruct (generate_cases localeCompare tid d)
      as (? & ? & ? & ? & -> & _); [fold roster; lia|]. done.
Qed.

(** X7. All rows that a committed round adds carry the tournament's id and
    one round number, which is 1 for a tournament without pairings and
    otherwise greater than the round number of every pairing the tournament
    had; their ids are the next values of the sequence. *)
Theorem generate_round_number (localeCompare : string → string → Z)
    (tid : Z) (d : db) :
  let roster := filter (λ r, Player.tournament_id r = tid) (players d) in
  let history := filter (λ r, Pairing.tournament_id r = tid) (pairings d) in
  (2 ≤ length roster)%nat →
  ∃ d' round,
    Netlify.generate localeCompare tid d = (201, d')
    ∧ pairings d' = pairings d ++ added_rows d d'
    ∧ Forall (λ r, Pairing.tournament_id r = tid
                   ∧ Pairing.round_number r = round) (added_rows d d')
    ∧ (history = [] → round = 1)
    ∧ Forall (λ h, Pairing.round_number h < round) history
    ∧ map Pairing.id (added_rows d d')
      = map (λ k, pairings_id_seq d + Z.of_nat k)
            (seq 0 (length (added_rows d d'))).
Proof.
  intros roster history Hn.
  destruct (generate_round_of localeCompare tid d Hn)
    as (d1 & nps & Hgen & Hd1 & Hseq).
  fold history in Hgen.
  match type of Hgen with
  | _ = (_, fold_left (Netlify.insert_pairing _ ?r) _ _) => set (round := r) in *
  end.
  destruct (insert_all_rows tid round nps d1) as (rows & Hrows & Hall & Hids).
  rewrite Hd1 in Hrows. rewrite Hseq in Hids.
  eexists _, round. split; [exact Hgen|].
  assert (Hadded : added_rows d
            (fold_left (Netlify.insert_pairing tid round) nps d1) = rows).
  { unfold added_rows. by rewrite Hrows, drop_app_length. }
  rewrite Hadded. split; [done|]. split; [done|]. split; [|split].
  - intros E. unfold round. by rewrite E.
  - apply Forall_forall. intros h Hh. unfold round.
    rewrite bool_decide_eq_true_2.
    + assert (Pairing.round_number h
              <= Netlify.js_max (map Pairing.round_number history)); [|lia].
      apply js_max_ge, list_elem_of_fmap. eauto.
    + destruct history; [by apply elem_of_nil in Hh|simpl; lia].
  - rewrite Hids. f_equal. f_equal.
    apply (f_equal (@length _)) in Hids. rewrite !length_map, length_seq in Hids.
    done.
Qed.

Lemma generate_round_number_witness :
  ∃ d' round,
    Netlify.generate Sample.codepoint_compare 1 Sample.played_game = (201, d')
    ∧ pairings d' = pairings Sample.played_game
                    ++ added_rows Sample.played_game d'
    ∧ Forall (λ r, Pairing.tournament_id r = 1
                   ∧ Pairing.round_number r = round)
             (added_rows Sample.played_game d')
    ∧ (filter (λ r, Pairing.tournament_id r = 1)
         (pairings Sample.played_game) = [] → round = 1)
    ∧ Forall (λ h, Pairing.round_number h < round)
             (filter (λ r, Pairing.tournament_id r = 1)
                (pairings Sample.played_game))
    ∧ map Pairing.id (added_rows Sample.played_game d')
      = map (λ k, pairings_id_seq Sample.played_game + Z.of_nat k)
            (seq 0 (length (added_rows Sample.played_game d'))).
Proof.
  apply (generate_round_number Sample.codepoint_compare 1 Sample.played_game).
  vm_compute. lia.
Defined.

Section SortWeak.
Context {A : Type} (cmp : A → A → Z) (Q : A → A → Prop).
Hypothesis Q_trans : ∀ a b c, Q a b → Q b c → Q a c.
Hypothesis Q_le : ∀ a b, cmp a b <= 0 → Q a b.
Hypothesis Q_gt : ∀ a b, ¬ cmp a b <= 0 → Q b a.

(** The sort orders by any transitive relation that the comparator
    refines, also when the comparator itself is not an order. *)
Lemma js_sort_sorted_by l : StronglySorted Q (js_sort cmp l).
Proof.
  induction l as [|x l IH]; simpl; [constructor|].
  induction IH as [|y k Hk IHk Hy]; simpl; [repeat constructor|].
  case_bool_decide as Hxy.
  - constructor; [by constructor|]. constructor; [by apply Q_le|].
    eapply Forall_impl; [exact Hy|]. intros z Hz.
    apply Q_trans with y; [by apply Q_le|done].
  - constructor; [done|]. rewrite sort_insert_Permutation.
    constructor; [by apply Q_gt|done].
Qed.
End SortWeak.

Section ByeChoice.
Import Netlify.

Lemma filter_ext_in {A} (P Q : A → Prop) `{∀ x, Decision (P x)}
    `{∀ x, Decision (Q x)} (l : list A) :
  (∀ x, x ∈ l → P x ↔ Q x) → filter P l = filter Q l.
Proof.
  induction l as [|x l IH]; intros Hl; [done|].
  rewrite !filter_cons, IH by (intros y Hy; apply Hl; by right).
  destruct (decide (P x)) as [HP|HP], (decide (Q x)) as [HQ|HQ]; try done;
    exfalso; apply (Hl x) in HP || apply (Hl x) in HQ; try done; left.
Qed.

Lemma head_by_points_asc l b :
  head (js_sort by_points_asc l) = Some b →
  b ∈ l
  ∧ (∀ x, x ∈ l → Player.points b <= Player.points x)
  ∧ head (filter (λ x, Player.points x = Player.points b) l) = Some b.
Proof.
  intros Hb. split; [by apply js_sort_head_elem in Hb|]. split.
  - assert (Hs : StronglySorted (λ a c, Player.points a <= Player.points c)
                   (js_sort by_points_asc l)).
    { apply js_sort_sorted_by; unfold by_points_asc; simpl; intros; lia. }
    intros x Hx. rewrite <- (js_sort_Permutation by_points_asc) in Hx.
    destruct (js_sort by_points_asc l) as [|b' t]; simplify_eq/=.
    apply StronglySorted_inv in Hs as [_ Hall].
    apply elem_of_cons in Hx as [->|Hx]; [lia|].
    by apply (proj1 (Forall_forall _ _) Hall).
  - rewrite <- (js_sort_stable by_points_asc
                  (λ x, Player.points x = Player.points b)).
    + destruct (js_sort by_points_asc l) as [|b' t]; simplify_eq/=.
      by rewrite filter_cons_True.
    + unfold by_points_asc. intros. lia.
Qed.
End ByeChoice.

(** X8. The bye of the serverless generator goes to a player of the lowest
    score among the players with the recipient's bye flag (those without a
    bye, or everybody once all have had one), and among the players of that
    flag and score to the first one in the order of the sorted roster. *)
Theorem netlify_bye_lowest_score (l avail : list Player.t) (b : Player.t) :
  Netlify.choose_bye l = (Some b, avail) →
  b ∈ l
  ∧ (∀ x, x ∈ l → Player.had_bye x = Player.had_bye b →
       Player.points b <= Player.points x)
  ∧ head (filter (λ x, Player.had_bye x = Player.had_bye b
                       ∧ Player.points x = Player.points b) l) = Some b.
Proof.
  unfold Netlify.choose_bye.
  destruct (head (js_sort Netlify.by_points_asc (filter _ l))) as [b'|] eqn:E.
  - intros [= -> _]. apply head_by_points_asc in E as (Hin & Hmin & Hfirst).
    apply list_elem_of_filter in Hin as [Hflag Hin].
    split; [done|]. split.
    + intros x Hx Hxb. apply Hmin, list_elem_of_filter. split; congruence.
    + rewrite list_filter_filter in Hfirst. rewrite <- Hfirst.
      f_equal. apply filter_ext_in. intros x _. rewrite Hflag. tauto.
  - assert (Hall : ∀ x, x ∈ l → Player.had_bye x = true).
    { intros x Hx. destruct (Player.had_bye x) eqn:Hx'; [done|].
      destruct (js_sort_head_is_Some Netlify.by_points_asc
                  (filter (λ p, Player.had_bye p = false) l)) as [y Hy].
      - intros E'. assert (x ∈ filter (λ p, Player.had_bye p = false) l)
          as Hin by by apply list_elem_of_filter.
        rewrite E' in Hin. by apply elem_of_nil in Hin.
      - rewrite Hy in E. done. }
    destruct (head (js_sort Netlify.by_points_asc l)) as [b'|] eqn:E2; [|done].
    intros [= -> _]. apply head_by_points_asc in E2 as (Hin & Hmin & Hfirst).
    split; [done|]. split; [auto|].
    rewrite <- Hfirst. f_equal. apply filter_ext_in.
    intros x Hx. rewrite (Hall x Hx), (Hall b Hin). tauto.
Qed.

Lemma netlify_bye_lowest_score_witness :
  let l := players Sample.after_bye in
  let b := Sample.player 1 "P1" 0 false in
  b ∈ l
  ∧ (∀ x, x ∈ l → Player.had_bye x = Player.had_bye b →
       Player.points b <= Player.points x)
  ∧ head (filter (λ x, Player.had_bye x = Player.had_bye b
                       ∧ Player.points x = Player.points b) l) = Some b.
Proof.
  apply (netlify_bye_lowest_score (players Sample.after_bye)
           (players Sample.after_bye) (Sample.player 1 "P1" 0 false)).
  reflexivity.
Defined.

(** X9. Whatever the collation of names, the roster as the serverless
    generator sorts it is in order of points descending, and it holds the
    same players. *)
Theorem sorted_roster_points_descending
    (localeCompare : string → string → Z) (l : list Player.t) :
  StronglySorted (λ a b, Player.points b <= Player.points a)
    (js_sort (Netlify.by_points_then_name localeCompare) l)
  ∧ js_sort (Netlify.by_points_then_name localeCompare) l ≡ₚ l.
Proof.
  split; [|apply js_sort_Permutation].
  apply js_sort_sorted_by.
  - intros; lia.
  - unfold Netlify.by_points_then_name. intros a b. simpl.
    case_bool_decide; lia.
  - unfold Netlify.by_points_then_name. intros a b. simpl.
    case_bool_decide; lia.
Qed.

(** * The server's generator *)

Section ServerRounds.
Import Server.

Lemma push_grows k v (m m' : gmap Z (list Z)) :
  push k v m = Some m' →
  (∀ k' x, x ∈ m !!! k' → x ∈ m' !!! k') ∧ v ∈ m' !!! k.
Proof.
  unfold push. destruct (m !! k) as [l|] eqn:Hk; [|done].
  intros [= <-]. split.
  - intros k' x Hx. destruct (decide (k = k')) as [<-|Hne].
    + rewrite lookup_total_insert_eq.
      rewrite (lookup_total_correct _ _ _ Hk) in Hx. set_solver.
    + by rewrite lookup_total_insert_ne.
  - rewrite lookup_total_insert_eq. set_solver.
Qed.

Lemma build_step_None (rows : list Pairing.t) :
  fold_left (λ (acc : option (gmap Z (list Z))) p,
      m ← acc;
      match Pairing.black_id p with
      | Some b =>
          if bool_decide (Pairing.white_id p ≠ 0) && bool_decide (b ≠ 0)
          then m1 ← push (Pairing.white_id p) b m;
               push b (Pairing.white_id p) m1
          else Some m
      | None => Some m
      end) rows None = None.
Proof. induction rows; simpl; auto. Qed.

Lemma build_fold_complete (rows : list Pairing.t) :
  ∀ m0 m,
    fold_left (λ (acc : option (gmap Z (list Z))) p,
        m ← acc;
        match Pairing.black_id p with
        | Some b =>
            if bool_decide (Pairing.white_id p ≠ 0) && bool_decide (b ≠ 0)
            then m1 ← push (Pairing.white_id p) b m;
                 push b (Pairing.white_id p) m1
            else Some m
        | None => Some m
        end) rows (Some m0) = Some m →
    (∀ k x, x ∈ m0 !!! k → x ∈ m !!! k)
    ∧ ∀ h b, h ∈ rows → Pairing.black_id h = Some b →
             Pairing.white_id h ≠ 0 → b ≠ 0 →
             b ∈ m !!! Pairing.white_id h ∧ Pairing.white_id h ∈ m !!! b.
Proof.
  induction rows as [|p rows IH]; intros m0 m; simpl.
  - intros [= <-]. split; [done|]. intros h b Hh. by apply elem_of_nil in Hh.
  - destruct (Pairing.black_id p) as [bp|] eqn:Hbp; simpl.
    + destruct (bool_decide (Pairing.white_id p ≠ 0) && bool_decide (bp ≠ 0))
        eqn:Hnz.
      * destruct (push (Pairing.white_id p) bp m0) as [m1|] eqn:H1; simpl;
          [|by rewrite build_step_None].
        destruct (push bp (Pairing.white_id p) m1) as [m2|] eqn:H2;
          [|by rewrite build_step_None].
        intros Hfold. destruct (IH _ _ Hfold) as [Hmono Hrows].
        apply push_grows in H1 as [Hg1 Hv1], H2 as [Hg2 Hv2].
        split; [by auto|].
        intros h b [->|Hh]%elem_of_cons Hb Hw Hbn; [|by eauto].
        rewrite Hbp in Hb. injection Hb as <-. split; auto.
      * intros Hfold. destruct (IH _ _ Hfold) as [Hmono Hrows].
        split; [done|].
        intros h b [->|Hh]%elem_of_cons Hb Hw Hbn; [|by eauto].
        rewrite Hbp in Hb. injection Hb as <-.
        apply andb_false_iff in Hnz as [Hnz|Hnz];
          apply bool_decide_eq_false in Hnz; by destruct Hnz.
    + intros Hfold. destruct (IH _ _ Hfold) as [Hmono Hrows].
      split; [done|].
      intros h b [->|Hh]%elem_of_cons Hb Hw Hbn; [congruence|by eauto].
Qed.

Lemma server_pair_loop_rows tid round (past : gmap Z (list Z)) l :
  ∀ paired d, ∃ rows,
    pairings (pair_loop tid round past l paired d) = pairings d ++ rows
    ∧ players (pair_loop tid round past l paired d) = players d
    ∧ Forall (λ r, ∃ b, Pairing.black_id r = Some b
                        ∧ b ∉ past !!! Pairing.white_id r) rows.
Proof.
  induction l as [|p1 l IH]; intros paired d; simpl.
  - exists []. by rewrite app_nil_r.
  - case_bool_decide; [apply IH|].
    destruct (find _ l) as [p2|] eqn:Hf; [|apply IH].
    apply find_some in Hf as [_ Hf].
    apply andb_true_iff in Hf as [_ Hf].
    apply negb_true_iff, bool_decide_eq_false in Hf.
    match goal with
    | |- context [pair_loop _ _ _ _ ?s ?d1] =>
        destruct (IH s d1) as (rows & Hrows & Hpl & Hall)
    end.
    eexists (_ :: rows). rewrite Hrows, Hpl. simpl.
    rewrite <- app_assoc. split; [done|]. split; [done|].
    constructor; [|done]. simpl. eauto.
Qed.
End ServerRounds.

(** X10. The server's generator never makes a rematch: no game of a round
    it commits is between two players who have met in an earlier pairing of
    the tournament, in either colour. *)
Theorem server_never_rematches (collate : string → string → Z)
    (tid : Z) (d d' : db) :
  Server.generate collate tid d = (201, d') →
  ∀ r b h,
    r ∈ added_rows d d' → Pairing.black_id r = Some b →
    h ∈ pairings d → Pairing.tournament_id h = tid →
    Pairing.white_id h ≠ 0 → Pairing.black_id h ≠ Some 0 →
    ¬ met (Pairing.white_id r) b h.
Proof.
  unfold Server.generate.
  set (history := filter (λ r, Pairing.tournament_id r = tid) (pairings d)).
  set (roster := js_sort _ _).
  destruct (Server.build_pastOpponents roster history) as [past|] eqn:Hbuild;
    [|done].
  unfold Server.build_pastOpponents in Hbuild.
  apply build_fold_complete in Hbuild as [_ Hpast].
  assert (Hloop : ∀ paired d1 rows0,
    pairings d1 = pairings d ++ rows0 →
    Forall (λ r, Pairing.black_id r = None) rows0 →
    ∀ r b h,
      r ∈ added_rows d
            (Server.pair_loop tid (Server.new_round history) past
               (filter (λ p, Player.id p ∉ paired) roster) paired d1) →
      Pairing.black_id r = Some b →
      h ∈ pairings d → Pairing.tournament_id h = tid →
      Pairing.white_id h ≠ 0 → Pairing.black_id h ≠ Some 0 →
      ¬ met (Pairing.white_id r) b h).
  { intros paired d1 rows0 Hd1 Hbyes r b h Hr Hb Hh Htid Hw Hbl Hmet.
    match type of Hr with
    | context [Server.pair_loop _ ?rd _ ?l _ _] =>
        destruct (server_pair_loop_rows tid rd past l paired d1)
          as (rows & Hrows & _ & Hall)
    end.
    unfold added_rows in Hr. rewrite Hrows, Hd1, <- app_assoc in Hr.
    rewrite drop_app_length in Hr.
    apply elem_of_app in Hr as [Hr|Hr].
    { apply (proj1 (Forall_forall _ _) Hbyes) in Hr. congruence. }
    apply (proj1 (Forall_forall _ _) Hall) in Hr as (b' & Hb' & Hnot).
    rewrite Hb in Hb'. injection Hb' as <-.
    assert (Hhist : h ∈ history) by by apply list_elem_of_filter.
    apply Hnot. destruct Hmet as [[Hw' Hb']|[Hw' Hb']].
    - rewrite <- Hw'. apply (Hpast h b); try done. congruence.
    - destruct (Hpast h (Pairing.white_id r)) as [_ H2]; try done.
      { intros E. apply Hbl. by rewrite Hb', E. }
      by rewrite Hw' in H2. }
  case_bool_decide.
  - destruct (match find _ (rev roster) with Some p => Some p | None => _ end)
      as [byePlayer|]; [|done].
    intros [= <-]. eapply Hloop.
    + simpl. reflexivity.
    + by repeat constructor.
  - intros [= <-]. apply (Hloop ∅ d []); [by rewrite app_nil_r|constructor].
Qed.

Lemma server_never_rematches_witness :
  fst (Server.generate Sample.codepoint_compare 1 Sample.after_bye) = 201
  ∧ ∀ r b h,
      r ∈ added_rows Sample.after_bye
            (snd (Server.generate Sample.codepoint_compare 1 Sample.after_bye)) →
      Pairing.black_id r = Some b →
      h ∈ pairings Sample.after_bye → Pairing.tournament_id h = 1 →
      Pairing.white_id h ≠ 0 → Pairing.black_id h ≠ Some 0 →
      ¬ met (Pairing.white_id r) b h.
Proof.
  split; [vm_compute; reflexivity|].
  apply (server_never_rematches Sample.codepoint_compare 1 Sample.after_bye).
  vm_compute. reflexivity.
Defined.

(** * The generator of [api.js] *)

Section ApiRounds.
Import Api.

Lemma NoDup_ids_filter (P : Player.t → Prop) `{∀ x, Decision (P x)} l :
  NoDup (map Player.id l) → NoDup (map Player.id (filter P l)).
Proof.
  induction l as [|x l IH]; [done|]. simpl. intros [Hx Hnd]%NoDup_cons.
  rewrite filter_cons. destruct (decide (P x)); [|auto].
  simpl. apply NoDup_cons. split; [|auto].
  intros (y & Hy & Hin)%list_elem_of_fmap. apply Hx.
  apply list_elem_of_filter in Hin as [_ Hin].
  rewrite Hy. apply list_elem_of_fmap. eauto.
Qed.

Lemma find_player2_Some rows paired p1 rest p2 :
  find_player2 rows paired p1 rest = Some p2 →
  p2 ∈ rest ∧ Player.id p2 ∉ paired.
Proof.
  unfold find_player2. destruct (find _ rest) as [c|] eqn:E1.
  - intros [= <-]. apply find_some in E1 as [Hin H].
    apply andb_true_iff in H as [H _].
    apply negb_true_iff, bool_decide_eq_false in H.
    split; [by apply list_elem_of_In|done].
  - intros E2. apply find_some in E2 as [Hin H].
    apply negb_true_iff, bool_decide_eq_false in H.
    split; [by apply list_elem_of_In|done].
Qed.

Lemma find_player2_None rows paired p1 rest :
  find_player2 rows paired p1 rest = None →
  ∀ x, x ∈ rest → Player.id x ∈ paired.
Proof.
  unfold find_player2. destruct (find _ rest) as [c|] eqn:E1; [done|].
  intros E2 x Hx. apply list_elem_of_In in Hx.
  pose proof (find_none _ _ E2 x Hx) as H. simpl in H.
  by apply negb_false_iff, bool_decide_eq_true in H.
Qed.

Lemma api_pair_loop_complete tid round l :
  ∀ paired d,
    NoDup (map Player.id l) →
    Z.of_nat (length (filter (λ p, Player.id p ∉ paired) l)) mod 2 = 0 →
    ∃ rows,
      pairings (pair_loop tid round l paired d) = pairings d ++ rows
      ∧ players (pair_loop tid round l paired d) = players d
      ∧ Forall Netlify.two_player (map Netlify.as_new rows)
      ∧ flat_map Netlify.np_ids (map Netlify.as_new rows)
        ≡ₚ map Player.id (filter (λ p, Player.id p ∉ paired) l).
Proof.
  induction l as [|p1 l IH]; intros paired d Hnd Hpar; simpl.
  - exists []. rewrite app_nil_r. repeat split; constructor.
  - simpl in Hnd. apply NoDup_cons in Hnd as [Hp1 Hnd].
    case_bool_decide as Hin.
    { rewrite filter_cons_False in Hpar |- * by (by intros ?). by apply IH. }
    rewrite filter_cons_True in Hpar |- * by done.
    destruct (find_player2 (pairings d) paired p1 l) as [p2|] eqn:Hf.
    2:{ exfalso.
        rewrite (filter_none (λ p, Player.id p ∉ paired) l) in Hpar.
        - simpl in Hpar. done.
        - intros x Hx Hnot. by apply Hnot, (find_player2_None _ _ _ _ Hf). }
    apply find_player2_Some in Hf as [Hp2 Hp2n].
    set (F := filter (λ p, Player.id p ∉ paired) l) in *.
    assert (HF' : filter (λ p, Player.id p
                    ∉ ({[Player.id p2]} ∪ ({[Player.id p1]} ∪ paired) : gset Z)) l
                  = filter (λ p, Player.id p ≠ Player.id p2) F).
    { unfold F. rewrite list_filter_filter. apply filter_ext_in.
      intros x Hx.
      assert (Player.id x ≠ Player.id p1).
      { intros E. apply Hp1. rewrite <- E. apply list_elem_of_fmap. eauto. }
      set_solver. }
    assert (Hsplit : Player.id p2
                     :: map Player.id (filter (λ p, Player.id p ≠ Player.id p2) F)
                     ≡ₚ map Player.id F).
    { apply split_off_by_id.
      - by apply NoDup_ids_filter.
      - by apply list_elem_of_filter. }
    match goal with
    | |- context [pair_loop _ _ _ ?s ?d1] =>
        destruct (IH s d1 Hnd) as (rows & Hrows & Hpl & Htwo & Hids)
    end.
    { rewrite HF'. apply Permutation_length in Hsplit.
      simpl in Hsplit, Hpar. rewrite !length_map in Hsplit. lia_mod. }
    eexists (_ :: rows). rewrite Hrows, Hpl. simpl. rewrite <- app_assoc.
    split; [done|]. split; [done|]. split.
    + constructor; [|done]. split; simpl; eauto.
    + unfold Netlify.np_ids at 1. simpl.
      rewrite Hids, HF'. by rewrite <- Hsplit.
Qed.

Lemma added_rows_app d d' rows :
  pairings d' = pairings d ++ rows → added_rows d d' = rows.
Proof. intros H. unfold added_rows. by rewrite H, drop_app_length. Qed.

Lemma find_rev_last {A} (f : A → bool) (l : list A) b :
  find f (rev l) = Some b →
  ∃ pre post, l = pre ++ b :: post ∧ f b = true
              ∧ Forall (λ x, f x = false) post.
Proof.
  induction l as [|x l IH] using rev_ind; [done|].
  rewrite rev_app_distr. simpl. destruct (f x) eqn:Hx.
  - intros [= <-]. exists l, []. by repeat split.
  - intros (pre & post & -> & Hb & Hpost)%IH.
    exists pre, (post ++ [x]). rewrite <- app_assoc. simpl.
    split; [done|]. split; [done|].
    apply Forall_app. split; [done|]. by constructor.
Qed.

Lemma api_choose_bye_elem tid rows sorted :
  sorted ≠ [] → ∃ b, choose_bye tid rows sorted = Some b ∧ b ∈ sorted.
Proof.
  intros Hne. unfold choose_bye.
  destruct (find _ (rev sorted)) as [b|] eqn:E.
  - exists b. split; [done|]. apply find_some in E as [E _].
    apply list_elem_of_In. by apply in_rev.
  - destruct (last sorted) as [b|] eqn:El.
    + exists b. split; [done|]. by apply last_Some_elem_of.
    + by apply last_None in El.
Qed.
End ApiRounds.

(** X11. The generator of [api.js] pairs everybody: for players of distinct
    ids and any history it commits a round of [n / 2] games between two
    players and, exactly when [n] is odd, one bye, and every player of the
    roster appears in exactly one of the rows added.  It has no lower bound
    on the roster: a lone player gets a bye. *)
Theorem api_generate_round_complete (collate : string → string → Z)
    (tid : Z) (d : db) :
  let roster := filter (λ r, Player.tournament_id r = tid) (players d) in
  NoDup (map Player.id roster) →
  ∃ d', Api.generate collate tid d = (201, d')
    ∧ pairings d' = pairings d ++ added_rows d d'
    ∧ length (filter (λ p, is_Some (Pairing.black_id p)) (added_rows d d'))
      = (length roster / 2)%nat
    ∧ length (filter (λ p, Pairing.black_id p = None) (added_rows d d'))
      = (length roster mod 2)%nat
    ∧ ∀ pl, pl ∈ roster →
        length (filter (appears (Player.id pl)) (added_rows d d')) = 1%nat.
Proof.
  intros roster Hnd. unfold Api.generate. fold roster.
  set (sorted := js_sort (Api.order_by_points_desc_name_asc collate) roster).
  set (round := Api.new_round tid (pairings d)).
  assert (Hperm : sorted ≡ₚ roster) by apply js_sort_Permutation.
  assert (Hlen : length sorted = length roster) by by rewrite Hperm.
  assert (Hnds : NoDup (map Player.id sorted)) by by rewrite Hperm.
  assert (Hfinish : ∀ rows,
    flat_map Netlify.np_ids (map Netlify.as_new rows) ≡ₚ map Player.id roster →
    ∀ pl, pl ∈ roster →
      length (filter (appears (Player.id pl)) rows) = 1%nat).
  { intros rows Hids pl Hpl.
    apply appears_once; rewrite Hids; [done|].
    apply list_elem_of_fmap. eauto. }
  case_bool_decide as Hpar.
  - destruct (api_choose_bye_elem tid (pairings d) sorted) as (b & -> & Hb).
    { intros E. rewrite E in Hpar. done. }
    set (pool := filter (λ p, Player.id p ∉ ({[Player.id b]} : gset Z)) sorted).
    assert (Hpool : pool = filter (λ p, Player.id p ≠ Player.id b) sorted).
    { apply filter_ext_in. intros x _. set_solver. }
    assert (Hsplit : Player.id b :: map Player.id pool ≡ₚ map Player.id roster).
    { rewrite Hpool, <- Hperm. by apply split_off_by_id. }
    assert (Hidem : filter (λ p, Player.id p ∉ ({[Player.id b]} : gset Z)) pool
                    = pool).
    { apply filter_all. intros x Hx. by apply list_elem_of_filter in Hx as [? _]. }
    match goal with
    | |- context [Api.pair_loop _ _ _ _ ?d1] =>
        destruct (api_pair_loop_complete tid round pool {[Player.id b]} d1)
          as (rows & Hrows & _ & Htwo & Hids)
    end.
    { by apply NoDup_ids_filter. }
    { rewrite Hidem. apply Permutation_length in Hsplit.
      simpl in Hsplit. rewrite !length_map in Hsplit. lia_mod. }
    rewrite Hidem in Hids.
    match type of Hrows with
    | pairings ?x = _ =>
        assert (Hrows2 : pairings x
                  = pairings d
                    ++ Pairing.Mk (pairings_id_seq d) tid round (Player.id b)
                         None (Some "1-0") :: rows)
          by (rewrite Hrows; simpl; by rewrite <- app_assoc)
    end.
    clear Hrows. rename Hrows2 into Hrows.
    eexists. split; [reflexivity|].
    rewrite (added_rows_app _ _ _ Hrows). split; [done|].
    pose proof (two_player_ids_length _ Htwo) as Hl.
    rewrite Hids, !length_map in Hl.
    apply Permutation_length in Hsplit as Hlen2.
    simpl in Hlen2. rewrite !length_map in Hlen2.
    rewrite count_games, count_byes. cbn [app map Netlify.as_new Pairing.black_id].
    rewrite filter_cons_False by (by intros [? ?]).
    rewrite filter_cons_True by done. cbn [length].
    destruct (two_player_counts _ Htwo) as [-> ->]. rewrite length_map.
    split; [lia_mod|]. split; [lia_mod|].
    apply Hfinish.
    cbn [app map flat_map]. unfold Netlify.np_ids at 1. simpl.
    by rewrite Hids.
  - match goal with
    | |- context [Api.pair_loop _ _ ?l _ _] =>
        assert (Hidem : l = sorted)
    end.
    { apply filter_all. intros x _. set_solver. }
    rewrite Hidem.
    destruct (api_pair_loop_complete tid round sorted ∅ d Hnds)
      as (rows & Hrows & _ & Htwo & Hids).
    { rewrite <- Hidem at 1. rewrite Hidem.
      rewrite (filter_all (λ p, Player.id p ∉ (∅ : gset Z)))
        by (intros; set_solver). lia. }
    rewrite (filter_all (λ p, Player.id p ∉ (∅ : gset Z))) in Hids
      by (intros; set_solver).
    eexists. split; [reflexivity|].
    rewrite (added_rows_app _ _ _ Hrows). split; [done|].
    pose proof (two_player_ids_length _ Htwo) as Hl.
    rewrite Hids, !length_map, Hlen in Hl.
    rewrite count_games, count_byes.
    destruct (two_player_counts _ Htwo) as [-> ->]. rewrite length_map.
    split; [lia_mod|]. split; [lia_mod|].
    apply Hfinish. by rewrite Hids, Hperm.
Qed.

Lemma api_generate_round_complete_witness :
  ∃ d', Api.generate Sample.codepoint_compare 1 Sample.after_bye = (201, d')
    ∧ pairings d' = pairings Sample.after_bye ++ added_rows Sample.after_bye d'
    ∧ length (filter (λ p, is_Some (Pairing.black_id p))
                (added_rows Sample.after_bye d'))
      = (length (filter (λ r, Player.tournament_id r = 1%Z)
                   (players Sample.after_bye)) / 2)%nat
    ∧ length (filter (λ p, Pairing.black_id p = None)
                (added_rows Sample.after_bye d'))
      = (length (filter (λ r, Player.tournament_id r = 1%Z)
                   (players Sample.after_bye)) mod 2)%nat
    ∧ ∀ pl, pl ∈ filter (λ r, Player.tournament_id r = 1)
                   (players Sample.after_bye) →
        length (filter (appears (Player.id pl))
                  (added_rows Sample.after_bye d')) = 1%nat.
Proof.
  apply (api_generate_round_complete Sample.codepoint_compare 1
           Sample.after_bye).
  by_decide.
Defined.

Section ApiMore.
Import Api.

Lemma prevGame_met rows a b :
  prevGame rows a b = true ↔ ∃ h, h ∈ rows ∧ met a b h.
Proof.
  unfold prevGame, met. rewrite existsb_exists. split.
  - intros (h & Hin & H). exists h. split; [by apply list_elem_of_In|].
    apply orb_true_iff in H as [H|H]; apply andb_true_iff in H as [H1 H2];
      apply bool_decide_eq_true in H1, H2; auto.
  - intros (h & Hin & H). exists h. split; [by apply list_elem_of_In|].
    apply orb_true_iff.
    destruct H as [[H1 H2]|[H1 H2]]; [left|right];
      apply andb_true_iff; split; by apply bool_decide_eq_true.
Qed.

End ApiMore.

(** X12. In the generator of [api.js] a player is paired with somebody met
    before only when every later player of the pool who is still unpaired
    has met that player too; the opponent is always a later, unpaired
    player of the pool. *)
Theorem api_rematch_only_when_forced (rows : list Pairing.t)
    (paired : gset Z) (p1 p2 : Player.t) (rest : list Player.t) :
  Api.find_player2 rows paired p1 rest = Some p2 →
  p2 ∈ rest ∧ (Player.id p2 ∉ paired)
  ∧ ((∃ h, h ∈ rows ∧ met (Player.id p1) (Player.id p2) h) →
     ∀ c, c ∈ rest → Player.id c ∉ paired →
          ∃ h, h ∈ rows ∧ met (Player.id p1) (Player.id c) h).
Proof.
  intros Hf. destruct (find_player2_Some _ _ _ _ _ Hf) as [Hin Hnp].
  split; [done|]. split; [done|].
  intros Hmet c Hc Hcp. apply prevGame_met. apply prevGame_met in Hmet.
  unfold Api.find_player2 in Hf.
  destruct (find _ rest) as [c'|] eqn:E1.
  - injection Hf as ->. apply find_some in E1 as [_ H].
    rewrite Hmet, andb_false_r in H. done.
  - apply list_elem_of_In in Hc.
    pose proof (find_none _ _ E1 c Hc) as H. simpl in H.
    apply andb_false_iff in H as [H|H].
    + by apply negb_false_iff, bool_decide_eq_true in H.
    + by apply negb_false_iff in H.
Qed.

Lemma api_rematch_only_when_forced_witness :
  let rows := pairings Sample.played_game in
  let p1 := Sample.player 1 "P1" 2 false in
  let p2 := Sample.player 2 "P2" 0 false in
  p2 ∈ [p2] ∧ (Player.id p2 ∉ (∅ : gset Z))
  ∧ ((∃ h, h ∈ rows ∧ met (Player.id p1) (Player.id p2) h) →
     ∀ c, c ∈ [p2] → Player.id c ∉ (∅ : gset Z) →
          ∃ h, h ∈ rows ∧ met (Player.id p1) (Player.id c) h).
Proof.
  apply (api_rematch_only_when_forced (pairings Sample.played_game) ∅
           (Sample.player 1 "P1" 2 false) (Sample.player 2 "P2" 0 false)
           [Sample.player 2 "P2" 0 false]).
  reflexivity.
Defined.

(** X13. The bye of the generator of [api.js] goes to the lowest-ranked
    player of the sorted roster who has no bye row in the tournament: every
    player ranked below the recipient has one; a recipient with a bye row
    is the last of the roster, and then everybody has one. *)
Theorem api_bye_is_lowest_ranked (tid : Z) (rows : list Pairing.t)
    (sorted : list Player.t) (b : Player.t) :
  Api.choose_bye tid rows sorted = Some b →
  ∃ pre post,
    sorted = pre ++ b :: post
    ∧ Forall (λ x, Api.has_bye_row tid rows x = true) post
    ∧ (Api.has_bye_row tid rows b = true →
       post = [] ∧ Forall (λ x, Api.has_bye_row tid rows x = true) pre).
Proof.
  unfold Api.choose_bye.
  destruct (find _ (rev sorted)) as [b'|] eqn:E.
  - intros [= ->]. apply find_rev_last in E as (pre & post & -> & Hb & Hpost).
    exists pre, post. split; [done|]. split.
    + eapply Forall_impl; [exact Hpost|]. intros x Hx.
      by apply negb_false_iff in Hx.
    + intros Hb'. rewrite Hb' in Hb. done.
  - intros (pre & ->)%last_Some. exists pre, []. split; [done|].
    split; [constructor|]. intros _. split; [done|].
    apply Forall_forall. intros x Hx.
    assert (Hin : In x (rev (pre ++ [b]))).
    { apply in_rev. rewrite rev_involutive. apply list_elem_of_In.
      apply elem_of_app. by left. }
    pose proof (find_none _ _ E x Hin) as H. by apply negb_false_iff in H.
Qed.

Lemma api_bye_is_lowest_ranked_witness :
  let rows := pairings Sample.after_bye in
  let b := Sample.player 2 "P2" 0 false in
  ∃ pre post,
    [Sample.player 3 "P3" 2 true; Sample.player 1 "P1" 0 false; b]
    = pre ++ b :: post
    ∧ Forall (λ x, Api.has_bye_row 1 rows x = true) post
    ∧ (Api.has_bye_row 1 rows b = true →
       post = [] ∧ Forall (λ x, Api.has_bye_row 1 rows x = true) pre).
Proof.
  apply (api_bye_is_lowest_ranked 1 (pairings Sample.after_bye)
           [Sample.player 3 "P3" 2 true; Sample.player 1 "P1" 0 false;
            Sample.player 2 "P2" 0 false]
           (Sample.player 2 "P2" 0 false)).
  reflexivity.
Defined.



(** * Bulk import on the server *)

Section BulkImport.
Import Server.
Context (lower : string → string) (dp : Z) (dh : bool) (tid : Z).

Lemma lower_names_app rows1 rows2 :
  lower_names lower tid (rows1 ++ rows2)
  = lower_names lower tid rows1 ++ lower_names lower tid rows2.
Proof. unfold lower_names. by rewrite filter_app, map_app. Qed.

Lemma lower_names_new i p :
  lower_names lower tid
    [Player.Mk i tid (np_name p) (np_grade p) (np_school p) dp dh]
  = [lower (np_name p)].
Proof.
  unfold lower_names. rewrite filter_cons_True by done. done.
Qed.

Lemma bulk_step_dup st p :
  lower (np_name p) ∈ existingNames st →
  bulk_step lower dp dh tid st p
  = BulkState (bs_table st) (existingNames st) (importedCount st)
              (S (duplicatesCount st)).
Proof. intros H. unfold bulk_step. by rewrite bool_decide_eq_true_2. Qed.

Lemma bulk_step_new st p :
  lower (np_name p) ∉ existingNames st →
  bulk_step lower dp dh tid st p
  = BulkState (sql_insert_player dp dh tid p (bs_table st))
              ({[lower (np_name p)]} ∪ existingNames st)
              (S (importedCount st)) (duplicatesCount st).
Proof. intros H. unfold bulk_step. by rewrite bool_decide_eq_false_2. Qed.

(** What one run of the loop does, from a state whose [existingNames] holds
    the lower-cased names of the tournament's rows. *)
Lemma bulk_fold l :
  ∀ st,
    existingNames st
    = list_to_set (lower_names lower tid (pt_rows (bs_table st))) →
    let st' := fold_left (bulk_step lower dp dh tid) l st in
    existingNames st'
    = list_to_set (lower_names lower tid (pt_rows (bs_table st')))
    ∧ (importedCount st' + duplicatesCount st'
       = importedCount st + duplicatesCount st + length l)%nat
    ∧ (∃ added,
         pt_rows (bs_table st') = pt_rows (bs_table st) ++ added
         ∧ (importedCount st' = importedCount st + length added)%nat
         ∧ pt_id_seq (bs_table st')
           = pt_id_seq (bs_table st) + Z.of_nat (length added)
         ∧ Forall (λ r, Player.tournament_id r = tid
                        ∧ Player.points r = dp
                        ∧ Player.had_bye r = dh) added)
    ∧ (NoDup (lower_names lower tid (pt_rows (bs_table st))) →
       NoDup (lower_names lower tid (pt_rows (bs_table st'))))
    ∧ existingNames st ⊆ existingNames st'
    ∧ ∀ p, p ∈ l → lower (np_name p) ∈ existingNames st'.
Proof.
  induction l as [|p l IH]; intros st Hinv; cbn [fold_left]; cbv zeta.
  - split; [done|]. split; [simpl; lia|]. split.
    { exists []. rewrite app_nil_r. repeat split; [simpl; lia..|constructor]. }
    split; [done|]. split; [done|]. intros p Hp. by apply elem_of_nil in Hp.
  - destruct (decide (lower (np_name p) ∈ existingNames st)) as [Hdup|Hdup].
    + rewrite (bulk_step_dup st p Hdup).
      match goal with
      | |- context [fold_left _ l ?s] =>
          destruct (IH s) as (H1 & H2 & (added & H3 & H4 & H5 & H6) & H7 & H8 & H9);
            [exact Hinv|]
      end.
      cbn [bs_table existingNames importedCount duplicatesCount] in H2, H3, H4, H5, H7, H8.
      split; [done|]. split; [simpl; lia|]. split; [by exists added|].
      split; [done|]. split; [done|].
      intros q [->|Hq]%elem_of_cons; [by apply H8|auto].
    + rewrite (bulk_step_new st p Hdup).
      match goal with
      | |- context [fold_left _ l ?s] =>
          destruct (IH s) as (H1 & H2 & (added & H3 & H4 & H5 & H6) & H7 & H8 & H9)
      end.
      { cbn [bs_table existingNames sql_insert_player pt_rows].
        rewrite lower_names_app, lower_names_new, list_to_set_app_L, Hinv.
        simpl. set_solver. }
      cbn [bs_table existingNames importedCount duplicatesCount
           sql_insert_player pt_rows pt_id_seq] in H2, H3, H4, H5, H7, H8.
      split; [done|]. split; [simpl; lia|]. split.
      { eexists (_ :: added). rewrite H3, <- app_assoc. simpl.
        split; [done|]. split; [lia|]. split; [lia|].
        constructor; [done|done]. }
      split.
      { intros Hnd. apply H7.
        rewrite lower_names_app, lower_names_new. apply NoDup_app.
        split; [done|]. split; [|apply NoDup_singleton].
        intros x Hx ->%list_elem_of_singleton. apply Hdup.
        rewrite Hinv. by apply elem_of_list_to_set. }
      split; [set_solver|].
      intros q [->|Hq]%elem_of_cons; [apply H8; set_solver|auto].
Qed.

(** Names that are all known are all counted as duplicates. *)
Lemma bulk_fold_known l :
  ∀ st, (∀ p, p ∈ l → lower (np_name p) ∈ existingNames st) →
        fold_left (bulk_step lower dp dh tid) l st
        = BulkState (bs_table st) (existingNames st) (importedCount st)
                    (duplicatesCount st + length l).
Proof.
  induction l as [|p l IH]; intros st Hl; simpl.
  - destruct st. simpl. f_equal. lia.
  - rewrite bulk_step_dup by (apply Hl; left).
    rewrite IH; simpl.
    + f_equal. lia.
    + intros q Hq. apply Hl. by right.
Qed.
End BulkImport.

(** X15. A bulk import of a non-empty array answers 201 with two counters
    that add up to the number of players sent; the table keeps its rows and
    gains as many rows as were counted imported, all in the tournament and
    with the column defaults, and the id sequence advances by that
    number. *)
Theorem bulk_counts (lower : string → string) (dp : Z) (dh : bool)
    (tid : Z) (newPlayers : list new_player)
    (t : players_table) :
  newPlayers ≠ [] →
  ∃ imported duplicates t' added,
    Server.bulk lower dp dh tid newPlayers t
    = (201, Some (imported, duplicates), t')
    ∧ (imported + duplicates = length newPlayers)%nat
    ∧ pt_rows t' = pt_rows t ++ added
    ∧ length added = imported
    ∧ pt_id_seq t' = pt_id_seq t + Z.of_nat imported
    ∧ Forall (λ r, Player.tournament_id r = tid
                   ∧ Player.points r = dp ∧ Player.had_bye r = dh) added.
Proof.
  intros Hne. unfold Server.bulk.
  rewrite bool_decide_eq_false_2 by (by destruct newPlayers).
  match goal with
  | |- context [fold_left _ newPlayers ?s] =>
      destruct (bulk_fold lower dp dh tid newPlayers s)
        as (_ & H2 & (added & H3 & H4 & H5 & H6) & _); [done|]
  end.
  simpl in *. eexists _, _, _, added. split; [done|].
  split; [lia|]. split; [done|]. split; [lia|]. split; [|done].
  rewrite H5. f_equal. lia.
Qed.

Lemma bulk_counts_witness :
  ∃ imported duplicates t' added,
    Server.bulk (λ s, s) 0 false 1
      [NewPlayer "P1" "6" "Central"; NewPlayer "P9" "6" "Central"]
      (PlayersTable (players Sample.five) 6)
    = (201, Some (imported, duplicates), t')
    ∧ (imported + duplicates = 2)%nat
    ∧ pt_rows t' = players Sample.five ++ added
    ∧ length added = imported
    ∧ pt_id_seq t' = 6 + Z.of_nat imported
    ∧ Forall (λ r, Player.tournament_id r = 1
                   ∧ Player.points r = 0 ∧ Player.had_bye r = false) added.
Proof.
  apply (bulk_counts (λ s, s) 0 false 1
           [NewPlayer "P1" "6" "Central";
            NewPlayer "P9" "6" "Central"]
           (PlayersTable (players Sample.five) 6)).
  discriminate.
Defined.

(** X16. A bulk import keeps the names of a tournament distinct up to
    letter case when they were, and afterwards every name that was sent is
    the name, up to letter case, of a player of the tournament. *)
Theorem bulk_keeps_names_distinct (lower : string → string) (dp : Z)
    (dh : bool) (tid : Z) (newPlayers : list new_player)
    (t : players_table) :
  newPlayers ≠ [] →
  NoDup (lower_names lower tid (pt_rows t)) →
  let t' := snd (Server.bulk lower dp dh tid newPlayers t) in
  NoDup (lower_names lower tid (pt_rows t'))
  ∧ ∀ p, p ∈ newPlayers →
      lower (np_name p) ∈ lower_names lower tid (pt_rows t').
Proof.
  intros Hne Hnd. unfold Server.bulk.
  rewrite bool_decide_eq_false_2 by (by destruct newPlayers).
  match goal with
  | |- context [fold_left _ newPlayers ?s] =>
      destruct (bulk_fold lower dp dh tid newPlayers s)
        as (H1 & _ & _ & H7 & _ & H9); [done|]
  end.
  simpl in *. split; [by apply H7|].
  intros p Hp. apply H9 in Hp. rewrite H1 in Hp.
  by apply elem_of_list_to_set in Hp.
Qed.

Lemma bulk_keeps_names_distinct_witness :
  let l := [NewPlayer "P1" "6" "Central";
            NewPlayer "P9" "6" "Central"] in
  let t := PlayersTable (players Sample.five) 6 in
  let t' := snd (Server.bulk (λ s, s) 0 false 1 l t) in
  NoDup (lower_names (λ s, s) 1 (pt_rows t'))
  ∧ ∀ p, p ∈ l →
      (λ s : string, s) (np_name p)
      ∈ lower_names (λ s, s) 1 (pt_rows t').
Proof.
  intros l t.
  apply (bulk_keeps_names_distinct (λ s, s) 0 false 1 l t).
  - discriminate.
  - by_decide.
Defined.

(** X17. Sending the same array again imports nothing: the second call
    counts every player as a duplicate and leaves the table as the first
    call left it. *)
Theorem bulk_again_imports_nothing (lower : string → string) (dp : Z)
    (dh : bool) (tid : Z) (newPlayers : list new_player)
    (t : players_table) :
  newPlayers ≠ [] →
  let t' := snd (Server.bulk lower dp dh tid newPlayers t) in
  Server.bulk lower dp dh tid newPlayers t'
  = (201, Some (0%nat, length newPlayers), t').
Proof.
  intros Hne t'. subst t'. unfold Server.bulk.
  rewrite !bool_decide_eq_false_2 by (by destruct newPlayers).
  match goal with
  | |- context [snd (_, _, Server.bs_table (fold_left _ newPlayers ?s))] =>
      destruct (bulk_fold lower dp dh tid newPlayers s)
        as (H1 & _ & _ & _ & _ & H9); [done|]
  end.
  cbn [snd] in *. rewrite bulk_fold_known.
  - done.
  - intros p Hp. cbn [Server.existingNames]. unfold lower_names in H1.
    rewrite <- H1. by apply H9.
Qed.

Lemma bulk_again_imports_nothing_witness :
  let l := [NewPlayer "P1" "6" "Central";
            NewPlayer "P9" "6" "Central"] in
  let t := PlayersTable (players Sample.five) 6 in
  let t' := snd (Server.bulk (λ s, s) 0 false 1 l t) in
  Server.bulk (λ s, s) 0 false 1 l t' = (201, Some (0%nat, length l), t').
Proof.
  intros l t.
  apply (bulk_again_imports_nothing (λ s, s) 0 false 1 l t).
  discriminate.
Defined.

(** * More on the standings *)

Section StandingsMore.
Lemma buchholz_app roster l1 l2 :
  buchholz roster (l1 ++ l2) = buchholz roster l1 + buchholz roster l2.
Proof.
  rewrite !buchholz_sum, map_app.
  induction (map (current_points roster) l1) as [|x xs IH]; simpl; lia.
Qed.
End StandingsMore.

(** X18. An opponent who is no longer in the roster still counts as a game
    played but adds nothing to the tiebreak: a pairing of the player, as
    white, against such an id raises the count of games by one and leaves
    the tiebreak as it was. *)
Theorem standings_absent_opponent (roster : list Player.t)
    (rows : list Pairing.t) (player : Player.t) (q : Pairing.t) (o : Z) :
  Pairing.white_id q = Player.id player →
  Pairing.black_id q = Some o → o ≠ 0 →
  (∀ p, p ∈ roster → Player.id p ≠ o) →
  Buchholz (standing_of roster (rows ++ [q]) player)
  = Buchholz (standing_of roster rows player)
  ∧ Partidas (standing_of roster (rows ++ [q]) player)
    = S (Partidas (standing_of roster rows player)).
Proof.
  intros Hw Hb Ho Habsent. unfold standing_of. simpl.
  rewrite opponentIds_app.
  assert (Hq : opponentIds [q] player = [o]).
  { unfold opponentIds. rewrite filter_cons_True by (by left).
    rewrite filter_nil. simpl. rewrite (bool_decide_eq_true_2 _ Hw), Hb.
    simpl. by rewrite bool_decide_eq_false_2. }
  rewrite Hq, buchholz_app, length_app. simpl. split; [|lia].
  unfold buchholz. simpl.
  destruct (find _ roster) as [p|] eqn:Hf; [|lia].
  apply find_some in Hf as [Hin Hid]. apply bool_decide_eq_true in Hid.
  exfalso. by apply (Habsent p); [apply list_elem_of_In|].
Qed.

Lemma standings_absent_opponent_witness :
  let roster := players Sample.pending_game in
  let player := Sample.player 1 "P1" 0 false in
  let q := Pairing.Mk 7 1 2 1 (Some 9) None in
  Buchholz (standing_of roster (pairings Sample.pending_game ++ [q]) player)
  = Buchholz (standing_of roster (pairings Sample.pending_game) player)
  ∧ Partidas (standing_of roster (pairings Sample.pending_game ++ [q]) player)
    = S (Partidas (standing_of roster (pairings Sample.pending_game) player)).
Proof.
  apply (standings_absent_opponent (players Sample.pending_game)
           (pairings Sample.pending_game) (Sample.player 1 "P1" 0 false)
           (Pairing.Mk 7 1 2 1 (Some 9) None) 9).
  - reflexivity.
  - reflexivity.
  - discriminate.
  - intros p Hp. vm_compute in Hp.
    apply elem_of_cons in Hp as [->|Hp]; [discriminate|].
    apply elem_of_cons in Hp as [->|Hp]; [discriminate|].
    by apply elem_of_nil in Hp.
Defined.

(** * The server's first round *)

Section ServerFirstRound.
Import Server.

Lemma init_pastOpponents_empty (roster : list Player.t) :
  ∀ (m : gmap Z (list Z)),
    (∀ k, m !!! k = []) →
    ∀ k, fold_left (λ acc p, <[Player.id p := []]> acc) roster m !!! k = [].
Proof.
  induction roster as [|p roster IH]; intros m Hm k; simpl; [done|].
  apply IH. intros k'. destruct (decide (Player.id p = k')) as [<-|Hne].
  - by rewrite lookup_total_insert_eq.
  - by rewrite lookup_total_insert_ne.
Qed.

Lemma server_pair_loop_complete tid round (past : gmap Z (list Z)) l :
  (∀ k, past !!! k = []) →
  ∀ paired d,
    NoDup (map Player.id l) →
    Z.of_nat (length (filter (λ p, Player.id p ∉ paired) l)) mod 2 = 0 →
    ∃ rows,
      pairings (pair_loop tid round past l paired d) = pairings d ++ rows
      ∧ Forall Netlify.two_player (map Netlify.as_new rows)
      ∧ flat_map Netlify.np_ids (map Netlify.as_new rows)
        ≡ₚ map Player.id (filter (λ p, Player.id p ∉ paired) l).
Proof.
  intros Hpast.
  induction l as [|p1 l IH]; intros paired d Hnd Hpar; simpl.
  - exists []. rewrite app_nil_r. repeat split; constructor.
  - simpl in Hnd. apply NoDup_cons in Hnd as [Hp1 Hnd].
    case_bool_decide as Hin.
    { rewrite filter_cons_False in Hpar |- * by (by intros ?). by apply IH. }
    rewrite filter_cons_True in Hpar |- * by done.
    destruct (find _ l) as [p2|] eqn:Hf.
    2:{ exfalso.
        rewrite (filter_none (λ p, Player.id p ∉ paired) l) in Hpar.
        - simpl in Hpar. done.
        - intros x Hx Hnot. apply list_elem_of_In in Hx.
          pose proof (find_none _ _ Hf x Hx) as H. simpl in H.
          rewrite Hpast in H.
          apply andb_false_iff in H as [H|H].
          + by apply negb_false_iff, bool_decide_eq_true in H.
          + apply negb_false_iff, bool_decide_eq_true in H.
            by apply elem_of_nil in H. }
    apply find_some in Hf as [Hp2 Hp2n]. apply list_elem_of_In in Hp2.
    apply andb_true_iff in Hp2n as [Hp2n _].
    apply negb_true_iff, bool_decide_eq_false in Hp2n.
    set (F := filter (λ p, Player.id p ∉ paired) l) in *.
    assert (HF' : filter (λ p, Player.id p
                    ∉ ({[Player.id p2]} ∪ ({[Player.id p1]} ∪ paired) : gset Z)) l
                  = filter (λ p, Player.id p ≠ Player.id p2) F).
    { unfold F. rewrite list_filter_filter. apply filter_ext_in.
      intros x Hx.
      assert (Player.id x ≠ Player.id p1).
      { intros E. apply Hp1. rewrite <- E. apply list_elem_of_fmap. eauto. }
      set_solver. }
    assert (Hsplit : Player.id p2
                     :: map Player.id (filter (λ p, Player.id p ≠ Player.id p2) F)
                     ≡ₚ map Player.id F).
    { apply split_off_by_id.
      - by apply NoDup_ids_filter.
      - by apply list_elem_of_filter. }
    match goal with
    | |- context [pair_loop _ _ _ _ ?s ?d1] =>
        destruct (IH s d1 Hnd) as (rows & Hrows & Htwo & Hids)
    end.
    { rewrite HF'. apply Permutation_length in Hsplit.
      simpl in Hsplit, Hpar. rewrite !length_map in Hsplit. lia_mod. }
    eexists (_ :: rows). rewrite Hrows. simpl. rewrite <- app_assoc.
    split; [done|]. split.
    + constructor; [|done]. split; simpl; eauto.
    + unfold Netlify.np_ids at 1. simpl.
      rewrite Hids, HF'. by rewrite <- Hsplit.
Qed.
End ServerFirstRound.

(** X19. For a tournament without pairings the server's generator pairs
    everybody: with players of distinct ids it commits [n / 2] games and,
    exactly when [n] is odd, one bye, and every player appears in exactly
    one of the rows added.  It has no lower bound on the roster. *)
Theorem server_first_round_complete (collate : string → string → Z)
    (tid : Z) (d : db) :
  let roster := filter (λ r, Player.tournament_id r = tid) (players d) in
  NoDup (map Player.id roster) →
  filter (λ r, Pairing.tournament_id r = tid) (pairings d) = [] →
  ∃ d', Server.generate collate tid d = (201, d')
    ∧ pairings d' = pairings d ++ added_rows d d'
    ∧ length (filter (λ p, is_Some (Pairing.black_id p)) (added_rows d d'))
      = (length roster / 2)%nat
    ∧ length (filter (λ p, Pairing.black_id p = None) (added_rows d d'))
      = (length roster mod 2)%nat
    ∧ ∀ pl, pl ∈ roster →
        length (filter (appears (Player.id pl)) (added_rows d d')) = 1%nat.
Proof.
  intros roster Hnd Hhist. unfold Server.generate. fold roster. rewrite Hhist.
  set (sorted := js_sort (Server.order_by_points_desc_name_asc collate) roster).
  set (round := Server.new_round []).
  unfold Server.build_pastOpponents. cbn [fold_left].
  set (past := fold_left _ sorted ∅).
  assert (Hpast : ∀ k, past !!! k = []).
  { apply init_pastOpponents_empty. intros k. by rewrite lookup_total_empty. }
  assert (Hperm : sorted ≡ₚ roster) by apply js_sort_Permutation.
  assert (Hlen : length sorted = length roster) by by rewrite Hperm.
  assert (Hnds : NoDup (map Player.id sorted)) by by rewrite Hperm.
  assert (Hfinish : ∀ rows,
    flat_map Netlify.np_ids (map Netlify.as_new rows) ≡ₚ map Player.id roster →
    ∀ pl, pl ∈ roster →
      length (filter (appears (Player.id pl)) rows) = 1%nat).
  { intros rows Hids pl Hpl.
    apply appears_once; rewrite Hids; [done|].
    apply list_elem_of_fmap. eauto. }
  case_bool_decide as Hpar.
  - assert (Hbye : ∃ b, (match find (λ p, negb (Player.had_bye p)) (rev sorted)
                         with Some p => Some p | None => last sorted end) = Some b
                        ∧ b ∈ sorted).
    { destruct (find _ (rev sorted)) as [b|] eqn:E.
      - exists b. split; [done|]. apply find_some in E as [E _].
        apply list_elem_of_In. by apply in_rev.
      - destruct (last sorted) as [b|] eqn:El.
        + exists b. split; [done|]. by apply last_Some_elem_of.
        + apply last_None in El. rewrite El in Hpar. done. }
    destruct Hbye as (b & -> & Hb).
    set (pool := filter (λ p, Player.id p ∉ ({[Player.id b]} : gset Z)) sorted).
    assert (Hpool : pool = filter (λ p, Player.id p ≠ Player.id b) sorted).
    { apply filter_ext_in. intros x _. set_solver. }
    assert (Hsplit : Player.id b :: map Player.id pool ≡ₚ map Player.id roster).
    { rewrite Hpool, <- Hperm. by apply split_off_by_id. }
    assert (Hidem : filter (λ p, Player.id p ∉ ({[Player.id b]} : gset Z)) pool
                    = pool).
    { apply filter_all. intros x Hx. by apply list_elem_of_filter in Hx as [? _]. }
    match goal with
    | |- context [Server.pair_loop _ _ _ _ _ ?d1] =>
        destruct (server_pair_loop_complete tid round past pool Hpast
                    {[Player.id b]} d1)
          as (rows & Hrows & Htwo & Hids)
    end.
    { by apply NoDup_ids_filter. }
    { rewrite Hidem. apply Permutation_length in Hsplit.
      simpl in Hsplit. rewrite !length_map in Hsplit. lia_mod. }
    rewrite Hidem in Hids.
    match type of Hrows with
    | pairings ?x = _ =>
        assert (Hrows2 : pairings x
                  = pairings d
                    ++ Pairing.Mk (pairings_id_seq d) tid round (Player.id b)
                         None (Some "1-0") :: rows)
          by (rewrite Hrows; simpl; by rewrite <- app_assoc)
    end.
    clear Hrows. rename Hrows2 into Hrows.
    eexists. split; [reflexivity|].
    rewrite (added_rows_app _ _ _ Hrows). split; [done|].
    pose proof (two_player_ids_length _ Htwo) as Hl.
    rewrite Hids, !length_map in Hl.
    apply Permutation_length in Hsplit as Hlen2.
    simpl in Hlen2. rewrite !length_map in Hlen2.
    rewrite count_games, count_byes. cbn [app map Netlify.as_new Pairing.black_id].
    rewrite filter_cons_False by (by intros [? ?]).
    rewrite filter_cons_True by done. cbn [length].
    destruct (two_player_counts _ Htwo) as [-> ->]. rewrite length_map.
    split; [lia_mod|]. split; [lia_mod|].
    apply Hfinish.
    cbn [app map flat_map]. unfold Netlify.np_ids at 1. simpl.
    by rewrite Hids.
  - match goal with
    | |- context [Server.pair_loop _ _ _ ?l _ _] =>
        assert (Hidem : l = sorted)
    end.
    { apply filter_all. intros x _. set_solver. }
    rewrite Hidem.
    destruct (server_pair_loop_complete tid round past sorted Hpast ∅ d Hnds)
      as (rows & Hrows & Htwo & Hids).
    { rewrite (filter_all (λ p, Player.id p ∉ (∅ : gset Z)))
        by (intros; set_solver). lia. }
    rewrite (filter_all (λ p, Player.id p ∉ (∅ : gset Z))) in Hids
      by (intros; set_solver).
    eexists. split; [reflexivity|].
    rewrite (added_rows_app _ _ _ Hrows). split; [done|].
    pose proof (two_player_ids_length _ Htwo) as Hl.
    rewrite Hids, !length_map, Hlen in Hl.
    rewrite count_games, count_byes.
    destruct (two_player_counts _ Htwo) as [-> ->]. rewrite length_map.
    split; [lia_mod|]. split; [lia_mod|].
    apply Hfinish. by rewrite Hids, Hperm.
Qed.

Lemma server_first_round_complete_witness :
  ∃ d', Server.generate Sample.codepoint_compare 1 Sample.five = (201, d')
    ∧ pairings d' = pairings Sample.five ++ added_rows Sample.five d'
    ∧ length (filter (λ p, is_Some (Pairing.black_id p))
                (added_rows Sample.five d'))
      = (length (filter (λ r, Player.tournament_id r = 1%Z)
                   (players Sample.five)) / 2)%nat
    ∧ length (filter (λ p, Pairing.black_id p = None)
                (added_rows Sample.five d'))
      = (length (filter (λ r, Player.tournament_id r = 1%Z)
                   (players Sample.five)) mod 2)%nat
    ∧ ∀ pl, pl ∈ filter (λ r, Player.tournament_id r = 1) (players Sample.five) →
        length (filter (appears (Player.id pl)) (added_rows Sample.five d'))
        = 1%nat.
Proof.
  apply (server_first_round_complete Sample.codepoint_compare 1 Sample.five).
  - by_decide.
  - reflexivity.
Defined.

(** * Bulk import in [api.js] *)

Section ApiBulk.
Context (lower : string → string) (dp : Z) (dh : bool) (tid : Z).

Lemma existing_none_iff rows name :
  length (filter (λ r, Player.tournament_id r = tid
                       ∧ lower (Player.name r) = lower name) rows) = 0%nat
  ↔ lower name ∉ (list_to_set (lower_names lower tid rows) : gset string).
Proof.
  rewrite elem_of_list_to_set. unfold lower_names.
  rewrite list_elem_of_fmap. split.
  - intros Hlen (r & Hr & Hin). apply list_elem_of_filter in Hin as [Ht Hin].
    apply length_zero_iff_nil in Hlen.
    assert (r ∈ filter (λ r, Player.tournament_id r = tid
                             ∧ lower (Player.name r) = lower name) rows)
      as Hr' by (apply list_elem_of_filter; auto).
    rewrite Hlen in Hr'. by apply elem_of_nil in Hr'.
  - intros Hnot. apply length_zero_iff_nil, filter_none.
    intros r Hr [Ht Hn]. apply Hnot. exists r. split; [done|].
    by apply list_elem_of_filter.
Qed.

Lemma api_bulk_fold l :
  ∀ st,
    Server.existingNames st
    = list_to_set (lower_names lower tid (pt_rows (Server.bs_table st))) →
    fold_left (Api.bulk_step lower dp dh tid) l
      (Server.bs_table st, Server.importedCount st, Server.duplicatesCount st)
    = (Server.bs_table (fold_left (Server.bulk_step lower dp dh tid) l st),
       Server.importedCount (fold_left (Server.bulk_step lower dp dh tid) l st),
       Server.duplicatesCount
         (fold_left (Server.bulk_step lower dp dh tid) l st)).
Proof.
  induction l as [|p l IH]; intros st Hinv; cbn [fold_left]; [done|].
  unfold Api.bulk_step at 2.
  destruct (decide (lower (np_name p) ∈ Server.existingNames st)) as [Hdup|Hdup].
  - rewrite (bulk_step_dup lower dp dh tid st p Hdup).
    rewrite bool_decide_eq_false_2.
    + apply (IH (Server.BulkState _ _ _ _)). exact Hinv.
    + rewrite existing_none_iff, <- Hinv. by intros H.
  - rewrite (bulk_step_new lower dp dh tid st p Hdup).
    rewrite bool_decide_eq_true_2.
    + apply (IH (Server.BulkState _ _ _ _)).
      cbn [Server.bs_table Server.existingNames sql_insert_player pt_rows].
      rewrite lower_names_app, lower_names_new, list_to_set_app_L, Hinv.
      simpl. set_solver.
    + by rewrite existing_none_iff, <- Hinv.
Qed.
End ApiBulk.

(** X20. On a non-empty array the bulk import of [api.js], which asks the
    database for a player of the same lower-cased name before each insert,
    gives the answer and the table of the server's bulk import, which
    keeps the lower-cased names in a set, when both lower-case alike. *)
Theorem api_bulk_agrees_with_server (lower : string → string) (dp : Z)
    (dh : bool) (tid : Z) (newPlayers : list new_player) (t : players_table) :
  newPlayers ≠ [] →
  Api.bulk lower dp dh tid newPlayers t
  = Server.bulk lower dp dh tid newPlayers t.
Proof.
  intros Hne. unfold Api.bulk, Server.bulk.
  rewrite bool_decide_eq_false_2 by (by destruct newPlayers).
  match goal with
  | |- context [fold_left (Server.bulk_step _ _ _ _) newPlayers ?s] =>
      pose proof (api_bulk_fold lower dp dh tid newPlayers s eq_refl) as H
  end.
  cbn [Server.bs_table Server.importedCount Server.duplicatesCount] in H.
  by rewrite H.
Qed.

Lemma api_bulk_agrees_with_server_witness :
  let l := [NewPlayer "P1" "6" "Central"; NewPlayer "P9" "6" "Central"] in
  let t := PlayersTable (players Sample.five) 6 in
  Api.bulk (λ s, s) 0 false 1 l t = Server.bulk (λ s, s) 0 false 1 l t.
Proof.
  intros l t.
  apply (api_bulk_agrees_with_server (λ s, s) 0 false 1 l t).
  discriminate.
Defined.

(** * The authenticated router *)

Section AuthLedger.
Lemma add_points_any_two delta w (b : option Z) rows :
  b ≠ Some w →
  add_points_any delta [Some w; b] rows
  = add_points delta b (add_points delta (Some w) rows).
Proof.
  intros Hne. unfold add_points_any, add_points. rewrite map_map.
  apply map_ext. intros r. unfold add_points_row. simpl.
  destruct (bool_decide (Player.id r = w)) eqn:Ew; simpl.
  - apply bool_decide_eq_true in Ew.
    unfold sql_id_eq. destruct b as [b|]; [|done].
    rewrite bool_decide_eq_false_2; [done|]. simpl. congruence.
  - rewrite orb_false_r. by destruct (sql_id_eq (Player.id r) b).
Qed.
End AuthLedger.

(** X21. The authenticated router's result update, which moves both players
    of a draw with one statement, gives the answer and the database of the
    other router of [api.js] whenever the pairing's two players differ. *)
Theorem auth_setResult_agrees (pid : Z) (r : string) (d : db) :
  (∀ p, select_pairing pid (pairings d) = Some p →
        Pairing.black_id p ≠ Some (Pairing.white_id p)) →
  Auth.setResult pid r d = Api.setResult pid r d.
Proof.
  intros Hdiff. unfold Auth.setResult, Api.setResult.
  destruct (select_pairing pid (pairings d)) as [p|]; [|done].
  specialize (Hdiff p eq_refl). cbv zeta.
  by rewrite !add_points_any_two.
Qed.

Lemma auth_setResult_agrees_witness :
  Auth.setResult 1 "0.5-0.5" Sample.played_game
  = Api.setResult 1 "0.5-0.5" Sample.played_game.
Proof.
  apply (auth_setResult_agrees 1 "0.5-0.5" Sample.played_game).
  intros p [= <-]. discriminate.
Defined.

(** * The serverless generator on any history *)

(** X22. Whatever the history, for at least two players of distinct ids the
    serverless generator commits a round in which every player of the roster
    appears exactly once, with [n / 2] games and one bye exactly when [n]
    is odd: rematches are made rather than leaving somebody out. *)
Theorem netlify_pairs_everyone (localeCompare : string → string → Z)
    (tid : Z) (d : db) :
  let roster := filter (λ r, Player.tournament_id r = tid) (players d) in
  (2 ≤ length roster)%nat →
  NoDup (map Player.id roster) →
  ∃ d', Netlify.generate localeCompare tid d = (201, d')
    ∧ pairings d' = pairings d ++ added_rows d d'
    ∧ length (filter (λ p, is_Some (Pairing.black_id p)) (added_rows d d'))
      = (length roster / 2)%nat
    ∧ length (filter (λ p, Pairing.black_id p = None) (added_rows d d'))
      = (length roster mod 2)%nat
    ∧ ∀ pl, pl ∈ roster →
        length (filter (appears (Player.id pl)) (added_rows d d')) = 1%nat.
Proof.
  intros roster Hn Hnd.
  destruct (generate_round_complete localeCompare tid d Hn Hnd)
    as (d' & rows & Hgen & Hrows & Hids & Hgames & Hbyes).
  exists d'. rewrite (added_rows_app _ _ _ Hrows).
  repeat (split; [done|]).
  intros pl Hpl. apply appears_once.
  - by rewrite Hids.
  - rewrite Hids. apply list_elem_of_fmap. eauto.
Qed.

Lemma netlify_pairs_everyone_witness :
  ∃ d', Netlify.generate Sample.codepoint_compare 1 Sample.played_game
        = (201, d')
    ∧ pairings d' = pairings Sample.played_game
                    ++ added_rows Sample.played_game d'
    ∧ length (filter (λ p, is_Some (Pairing.black_id p))
                (added_rows Sample.played_game d'))
      = (length (filter (λ r, Player.tournament_id r = 1%Z)
                   (players Sample.played_game)) / 2)%nat
    ∧ length (filter (λ p, Pairing.black_id p = None)
                (added_rows Sample.played_game d'))
      = (length (filter (λ r, Player.tournament_id r = 1%Z)
                   (players Sample.played_game)) mod 2)%nat
    ∧ ∀ pl, pl ∈ filter (λ r, Player.tournament_id r = 1)
                   (players Sample.played_game) →
        length (filter (appears (Player.id pl))
                  (added_rows Sample.played_game d')) = 1%nat.
Proof.
  apply (netlify_pairs_everyone Sample.codepoint_compare 1 Sample.played_game).
  - vm_compute. lia.
  - by_decide.
Defined.

(** X23. In the serverless generator a player is paired with somebody met
    before only when every other unpaired player of the pool has met that
    player too; the opponent is always another, unpaired player of the
    pool. *)
Theorem netlify_rematch_only_when_forced (allPairings : list Pairing.t)
    (pool : list Player.t) (pairedIds : gset Z) (p1 o : Player.t) :
  Netlify.find_opponent allPairings pool pairedIds p1 = Some o →
  o ∈ pool ∧ Player.id o ≠ Player.id p1 ∧ (Player.id o ∉ pairedIds)
  ∧ (Netlify.havePlayed allPairings p1 o = true →
     ∀ c, c ∈ pool → Player.id c ≠ Player.id p1 → Player.id c ∉ pairedIds →
          Netlify.havePlayed allPairings p1 c = true).
Proof.
  intros Hf.
  destruct (find_opponent_Some _ _ _ _ _ Hf) as (H1 & H2 & H3).
  repeat (split; [done|]).
  by apply rematch_only_when_forced.
Qed.

Lemma netlify_rematch_only_when_forced_witness :
  let rows := pairings Sample.played_game in
  let pool := players Sample.played_game in
  let p1 := Sample.player 1 "P1" 2 false in
  let o := Sample.player 2 "P2" 0 false in
  o ∈ pool ∧ Player.id o ≠ Player.id p1 ∧ (Player.id o ∉ (∅ : gset Z))
  ∧ (Netlify.havePlayed rows p1 o = true →
     ∀ c, c ∈ pool → Player.id c ≠ Player.id p1 →
          Player.id c ∉ (∅ : gset Z) →
          Netlify.havePlayed rows p1 c = true).
Proof.
  apply (netlify_rematch_only_when_forced (pairings Sample.played_game)
           (players Sample.played_game) ∅
           (Sample.player 1 "P1" 2 false) (Sample.player 2 "P2" 0 false)).
  reflexivity.
Defined.

(** * The authentication middleware *)

Section AuthMiddleware.
Import Auth.

Lemma no_space_cons c s :
  no_space (String c s) ↔ c ≠ Ascii.Space ∧ no_space s.
Proof.
  unfold no_space. simpl. rewrite not_elem_of_cons. naive_solver.
Qed.

Lemma split_space_head s : ∃ piece pieces, split_space s = piece :: pieces.
Proof.
  induction s as [|c s (piece & pieces & IH)]; simpl; [eauto|].
  case_bool_decide; [eauto|]. rewrite IH. eauto.
Qed.

Lemma split_space_whole s : no_space s → split_space s = [s].
Proof.
  induction s as [|c s IH]; [done|].
  intros [Hc Hs]%no_space_cons. simpl.
  rewrite bool_decide_eq_false_2 by done. by rewrite IH.
Qed.

Lemma split_space_app a b :
  no_space a →
  split_space (a ++ String Ascii.Space b) = a :: split_space b.
Proof.
  induction a as [|c a IH]; simpl.
  - intros _. by rewrite ?bool_decide_eq_true_2.
  - intros [Hc Ha]%no_space_cons.
    rewrite bool_decide_eq_false_2 by done. by rewrite IH.
Qed.
End AuthMiddleware.

(** X24. A header made of a scheme, one space and a token, neither holding
    a space, is judged by the token alone: the request is handed on with
    the user [jwt.verify] returns for the token and answered 403 when the
    library rejects it; the scheme word is never looked at. *)
Theorem authenticate_scheme_token (user : Type)
    (verify : string → option user) (scheme tok : string) :
  no_space scheme → no_space tok →
  Auth.authenticateToken user verify
    (Some (scheme ++ String Ascii.Space tok)%string)
  = match verify tok with
    | Some u => Auth.Next u
    | None => Auth.SendStatus 403
    end.
Proof.
  intros Hs Ht. unfold Auth.authenticateToken.
  rewrite bool_decide_eq_false_2 by (by destruct scheme).
  by rewrite split_space_app, split_space_whole.
Qed.

Lemma authenticate_scheme_token_witness :
  Auth.authenticateToken nat Sample.verify
    (Some ("Bearer" ++ String Ascii.Space "abc")%string)
  = match Sample.verify "abc" with
    | Some u => Auth.Next u
    | None => Auth.SendStatus 403
    end.
Proof.
  apply (authenticate_scheme_token nat Sample.verify "Bearer" "abc").
  - unfold no_space. by_decide.
  - unfold no_space. by_decide.
Defined.

(** X25. A request without an authorization header, or with a non-empty
    header that holds no space (a bare token, say), is answered 401 whatever
    [jwt.verify] would say. *)
Theorem authenticate_needs_two_words (user : Type)
    (verify : string → option user) (h : string) :
  h ≠ "" → no_space h →
  Auth.authenticateToken user verify (Some h) = Auth.SendStatus 401
  ∧ Auth.authenticateToken user verify None = Auth.SendStatus 401.
Proof.
  intros Hne Hs. split; [|done]. unfold Auth.authenticateToken.
  rewrite bool_decide_eq_false_2 by done.
  by rewrite split_space_whole.
Qed.

Lemma authenticate_needs_two_words_witness :
  Auth.authenticateToken nat Sample.verify (Some "abc") = Auth.SendStatus 401
  ∧ Auth.authenticateToken nat Sample.verify None = Auth.SendStatus 401.
Proof.
  apply (authenticate_needs_two_words nat Sample.verify "abc").
  - discriminate.
  - unfold no_space. by_decide.
Defined.
